(** * ara::core::Future — a model of include/public/ara/core/future.h

    The header wraps a [std::future<T>] in the class [Future<T, E>].  The
    development below embeds

    - the part of the C++ standard library the header delegates to
      ([std::future_errc], [std::future_error], the shared state of a
      [std::promise]/[std::future] pair and [std::future::get]), in
      [Module std];
    - the member functions the header defines: the move constructor, the
      move assignment operator, [get] and [GetResult];
    - the member functions the header only declares ([valid], [is_ready],
      [wait_for], [then]), modelled from their documentation.

    Calls are modelled by the way they complete ([completion]): a C++ member
    function may return, throw, wait for the producer, end the program
    through [std::terminate], or run off the end of its body. *)

From Stdlib Require Import ZArith String Lia.
From stdpp Require Import gmap list.

Local Open Scope Z_scope.

(** ** The standard library primitive *)

Module std.

(** [std::future_errc], with the enumerator values of GNU libstdc++
    ([<future>]: future_already_retrieved = 1, ...). *)
Inductive future_errc :=
| future_already_retrieved
| promise_already_satisfied
| no_state
| broken_promise.

Definition value (c : future_errc) : Z :=
  match c with
  | future_already_retrieved => 1
  | promise_already_satisfied => 2
  | no_state => 3
  | broken_promise => 4
  end.

(** An exception in flight.  [future_error code] is a [std::future_error]
    whose [code().value()] is [code]; every exception of another type is
    an [other_exception]. *)
Inductive exception :=
| future_error (code : Z)
| other_exception (what : string).

#[global] Instance exception_eq_dec : EqDecision exception.
Proof. solve_decision. Defined.

(** What the producer stored in a shared state: [std::promise::set_value]
    stores a value, [std::promise::set_exception] an exception; a promise
    destroyed before either stores [future_error broken_promise]. *)
Inductive stored (T : Type) :=
| stored_value (v : T)
| stored_exception (ex : exception).
Arguments stored_value {T} v.
Arguments stored_exception {T} ex.

(** [std::future<T>]: a reference to a shared state, or none. *)
Abbreviation future := (option nat) (only parsing).

Definition valid (h : future) : bool :=
  match h with Some _ => true | None => false end.

End std.

(** How a call completes. *)
Inductive completion (A : Type) :=
| Returns (a : A)            (* the call returns [a] *)
| Throws (ex : std.exception) (* the call exits with an exception *)
| Blocks                     (* the call waits: the shared state is not ready *)
| Terminates                 (* an exception left a noexcept function *)
| FlowsOffEnd.               (* the end of a value-returning body was reached *)
Arguments Returns {A} a.
Arguments Throws {A} ex.
Arguments Blocks {A}.
Arguments Terminates {A}.
Arguments FlowsOffEnd {A}.

(** ** Types of the headers future.h includes *)

(** Modelled from the spec: the enumeration [ara::core::future_errc] of
    future_error_domain.h, which is not part of the sources.  The spec's
    closed set of error kinds is BrokenLink, AlreadyRetrieved, NoState,
    AlreadySatisfied and Other; the constructors carry the enumerator names
    [GetResult] uses for them ([kInvalidArgument] is the kind Other). *)
Inductive future_errc :=
| broken_promise
| future_already_retrieved
| promise_already_satisfied
| no_state
| kInvalidArgument.

#[global] Instance future_errc_eq_dec : EqDecision future_errc.
Proof. solve_decision. Defined.

(** Modelled from the spec: the result container [Result<T, E>] of result.h,
    which is not part of the sources: a two-variant holder with a constructor
    from each variant. *)
Inductive Result (T E : Type) :=
| Value (v : T)
| Error (e : E).
Arguments Value {T E} v.
Arguments Error {T E} e.

(** [GetResult] builds its errors with [R::FromError(future_errc::...)], so
    the error type [E] has to be constructible from a [future_errc]. *)
Class FromFutureErrc (E : Type) := MakeErrorCode : future_errc -> E.

(** Modelled from the spec: [ErrorCode] of error_code.h, the default for [E];
    only the error kind it was made from is kept. *)
Record ErrorCode := mkErrorCode { ErrorCode_Value : future_errc }.

#[global] Instance ErrorCode_eq_dec : EqDecision ErrorCode.
Proof. solve_decision. Defined.

#[global] Instance ErrorCode_from_errc : FromFutureErrc ErrorCode := mkErrorCode.

Definition FromError {T E : Type} `{FromFutureErrc E} (c : future_errc) : Result T E :=
  Error (MakeErrorCode c).

(** future.h:18-25 *)
Inductive future_status :=
| ready
| timeout.

#[global] Instance future_status_eq_dec : EqDecision future_status.
Proof. solve_decision. Defined.

(** ** The error classification of GetResult (future.h:72-83)

    [static_cast<std::future_errc>(ex.code().value())] followed by the
    switch over the four enumerators and its default arm. *)
Definition classify (code : Z) : future_errc :=
  if code =? std.value std.broken_promise then broken_promise
  else if code =? std.value std.future_already_retrieved then future_already_retrieved
  else if code =? std.value std.no_state then no_state
  else if code =? std.value std.promise_already_satisfied then promise_already_satisfied
  else kInvalidArgument.

(** ** The store: shared states and Future objects *)

Section Store.
Context {T : Type}.

(** [states] holds the shared states the producer has made ready; a shared
    state absent from it is not ready yet.  [futures] maps every live
    [Future] object to its member [future_].  [next_state] is the next
    unused shared state. *)
Record store := mkStore {
  states : gmap nat (std.stored T);
  futures : gmap nat std.future;
  next_state : nat
}.

Definition empty_store : store := mkStore ∅ ∅ 0%nat.

Definition set_states (s : store) (m : gmap nat (std.stored T)) : store :=
  mkStore m (futures s) (next_state s).

Definition set_futures (s : store) (m : gmap nat std.future) : store :=
  mkStore (states s) m (next_state s).

(** [this->future_] of a live object; a [Future] that is not live is read
    as one without shared state. *)
Definition future_ (s : store) (this : nat) : std.future :=
  default None (futures s !! this).

(** [std::future<T>::get] on the member of [this].  Without shared state
    libstdc++ throws [future_error(no_state)], as the standard recommends;
    with a shared state that is not ready the call waits; otherwise the
    stored value is returned or the stored exception rethrown, and the
    future gives up its shared state either way. *)
Definition std_future_get (s : store) (this : nat) : completion T * store :=
  match future_ s this with
  | None => (Throws (std.future_error (std.value std.no_state)), s)
  | Some sid =>
      match states s !! sid with
      | None => (Blocks, s)
      | Some (std.stored_value v) =>
          (Returns v, set_futures s (<[this := None]> (futures s)))
      | Some (std.stored_exception ex) =>
          (Throws ex, set_futures s (<[this := None]> (futures s)))
      end
  end.

(** future.h:63 — [T get() { return future_.get(); }] *)
Definition get (s : store) (this : nat) : completion T * store :=
  std_future_get s this.

(** future.h:67-85 — [GetResult]: the value of [future_.get()] is wrapped
    in [R]; a [std::future_error] is caught and classified; any other
    exception passes the only handler and leaves a noexcept function. *)
Definition GetResult {E : Type} `{FromFutureErrc E} (s : store) (this : nat)
  : completion (Result T E) * store :=
  match std_future_get s this with
  | (Returns v, s') => (Returns (Value v), s')
  | (Throws (std.future_error code), s') => (Returns (FromError (classify code)), s')
  | (Throws (std.other_exception what), s') => (Terminates, s')
  | (Blocks, s') => (Blocks, s')
  | (Terminates, s') => (Terminates, s')
  | (FlowsOffEnd, s') => (FlowsOffEnd, s')
  end.

(** *** Construction, move and destruction *)

(** future.h:35 — [Future() noexcept = default]: the member is a
    default-constructed [std::future], which has no shared state. *)
Definition Future_default (s : store) (this : nat) : store :=
  set_futures s (<[this := None]> (futures s)).

(** [std::swap] of the [std::future] members of two objects. *)
Definition std_swap (m : gmap nat std.future) (a b : nat) : gmap nat std.future :=
  <[b := default None (m !! a)]> (<[a := default None (m !! b)]> m).

(** [std::future::operator=(future&&)] as libstdc++ writes it,
    [future(std::move(rhs))._M_swap( *this)]: a temporary takes the state of
    [rhs] and leaves [rhs] without one, then the temporary and the target
    are swapped and the temporary releases what the target held.  Assigning
    an object to itself leaves it as it was. *)
Definition std_future_move_assign (m : gmap nat std.future) (this other : nat)
  : gmap nat std.future :=
  let tmp := default None (m !! other) in
  let m1 := <[other := None]> m in
  <[this := tmp]> m1.

(** The statements the bodies of the special member functions are made of,
    and the statement [return *this;]. *)
Inductive stmt :=
| swap_members (other : nat)        (* std::swap(other.future_, future_); *)
| move_assign_member (other : nat)  (* future_ = std::move(other.future_); *)
| return_this.                      (* return *this; *)

(** A body run on the object [this].  The call returns when a return
    statement is reached; a body that ends without one flows off the end of
    the function, which is how a constructor ends and what a function
    declared to return [Future&] must not do. *)
Fixpoint exec (this : nat) (body : list stmt) (s : store) : completion nat * store :=
  match body with
  | [] => (FlowsOffEnd, s)
  | return_this :: _ => (Returns this, s)
  | swap_members other :: body' =>
      exec this body' (set_futures s (std_swap (futures s) other this))
  | move_assign_member other :: body' =>
      exec this body' (set_futures s (std_future_move_assign (futures s) this other))
  end.

(** future.h:43 — [Future(Future&& other) noexcept
    { std::swap(other.future_, future_); }]: the member of the new object
    is default-initialised, then the body swaps it with the member of
    [other]. *)
Definition Future_move_body (other : nat) : list stmt :=
  [swap_members other].

Definition Future_move (s : store) (this other : nat) : store :=
  snd (exec this (Future_move_body other) (Future_default s this)).

(** future.h:56 — [Future& operator=(Future&& other) noexcept
    { future_ = std::move(other.future_); }]: the body is the assignment of
    the member, and nothing else. *)
Definition operator_move_assign_body (other : nat) : list stmt :=
  [move_assign_member other].

Definition Future_move_assign (s : store) (this other : nat) : completion nat * store :=
  exec this (operator_move_assign_body other) s.

(** future.h:47 — [~Future() noexcept = default]. *)
Definition Future_destroy (s : store) (this : nat) : store :=
  set_futures s (delete this (futures s)).

(** *** The producer side (std::promise, outside the header) *)

Inductive producer_op :=
| set_value (v : T)                  (* std::promise::set_value *)
| set_exception (ex : std.exception) (* std::promise::set_exception *)
| abandon.                           (* the promise is destroyed *)

Definition produced (p : producer_op) : std.stored T :=
  match p with
  | set_value v => std.stored_value v
  | set_exception ex => std.stored_exception ex
  | abandon => std.stored_exception (std.future_error (std.value std.broken_promise))
  end.

(** A shared state is made ready once.  A second [set_value] or
    [set_exception] throws [promise_already_satisfied] and changes nothing;
    destroying the promise of a ready state changes nothing. *)
Definition produce (s : store) (sid : nat) (p : producer_op) : completion unit * store :=
  match states s !! sid with
  | None => (Returns tt, set_states s (<[sid := produced p]> (states s)))
  | Some _ =>
      match p with
      | abandon => (Returns tt, s)
      | _ => (Throws (std.future_error (std.value std.promise_already_satisfied)), s)
      end
  end.

(** Modelled from the spec: the paired creation of the producer and the
    consumer handle ("construction (paired producer/consumer creation)"),
    which is not part of the sources: a new [Future] object [this] refers
    to a new shared state, which is returned to the producer. *)
Definition make_channel (s : store) (this : nat) : nat * store :=
  (next_state s,
   mkStore (states s) (<[this := Some (next_state s)]> (futures s)) (S (next_state s))).

(** *** Members the header declares without a body *)

(** Modelled from the spec: [valid()], declared at future.h:90 without a
    body: "true iff it currently refers to a SharedState". *)
Definition valid (s : store) (this : nat) : bool :=
  std.valid (future_ s this).

(** Modelled from the spec: [is_ready()], declared at future.h:149 without
    a body: "true if the Future contains a value or an error, false
    otherwise"; "undefined if valid() is false" is the result [None]. *)
Definition is_ready (s : store) (this : nat) : option bool :=
  match future_ s this with
  | None => None
  | Some sid => Some (match states s !! sid with Some _ => true | None => false end)
  end.

(** Modelled from the spec: what happens while a call waits ("blocks up to
    duration"): a unit of time passes, or the producer of some shared state
    acts. *)
Inductive event :=
| Tick
| Produce (sid : nat) (p : producer_op).

Definition perform (s : store) (e : event) : store :=
  match e with
  | Tick => s
  | Produce sid p => snd (produce s sid p)
  end.

(** The units of time that pass during [tl]. *)
Fixpoint ticks (tl : list event) : nat :=
  match tl with
  | [] => 0%nat
  | Tick :: tl' => S (ticks tl')
  | Produce _ _ :: tl' => ticks tl'
  end.

(** Modelled from the spec: waiting for shared state [sid] for at most [d]
    units of time while the events of [tl] happen.  The wait ends as soon as
    the state is ready ("Ready if the state became ready within that
    window"), and with a timeout when a unit of time would pass with none
    left ("Timeout otherwise").  The result is the status, the store and the
    events not yet seen. *)
Fixpoint wait_ready (sid : nat) (d : nat) (tl : list event) (s : store)
  : future_status * store * list event :=
  match states s !! sid with
  | Some _ => (ready, s, tl)
  | None =>
      match tl with
      | [] => (timeout, s, [])
      | Tick :: tl' =>
          match d with
          | O => (timeout, s, tl)
          | S d' => wait_ready sid d' tl' s
          end
      | Produce sid' p :: tl' => wait_ready sid d tl' (snd (produce s sid' p))
      end
  end.

(** Modelled from the spec: [wait_for(duration)], declared at
    future.h:101-102 without a body: "blocks up to duration; returns Ready
    if the state became ready within that window, Timeout otherwise; does
    not consume the result".  The spec leaves the call on a Future without
    shared state open: [None]. *)
Definition wait_for (s : store) (this : nat) (d : nat) (tl : list event)
  : option (future_status * store * list event) :=
  match future_ s this with
  | None => None
  | Some sid => Some (wait_ready sid d tl s)
  end.

(** *** Programs over the store *)

Inductive op :=
| op_make_channel                  (* paired creation; the Future is a new object *)
| op_Future                        (* default constructor, a new object *)
| op_Future_move (other : nat)     (* move constructor, a new object *)
| op_move_assign (this other : nat)
| op_destroy (this : nat)
| op_get (this : nat)
| op_GetResult (this : nat)
| op_produce (sid : nat) (p : producer_op).

Definition new_object (s : store) : nat := fresh (dom (futures s)).

Definition live (s : store) (this : nat) : bool :=
  bool_decide (this ∈ dom (futures s)).

Context {E : Type} `{FromFutureErrc E}.

(** One operation of a program.  An operation that names an object that is
    not live, or a shared state that was never created, is not part of any
    program and leaves the store alone.  The store is carried on whatever
    way the call completed, also past a call that threw, ended the program
    or flowed off the end of its function, where the real program has no
    further store: [run] so reaches every store a real program reaches and
    more, which is what a property of every store [run] reaches needs. *)
Definition step (s : store) (o : op) : store :=
  match o with
  | op_make_channel => snd (make_channel s (new_object s))
  | op_Future => Future_default s (new_object s)
  | op_Future_move other =>
      if live s other then Future_move s (new_object s) other else s
  | op_move_assign this other =>
      if live s this && live s other then snd (Future_move_assign s this other) else s
  | op_destroy this => Future_destroy s this
  | op_get this => if live s this then snd (get s this) else s
  | op_GetResult this => if live s this then snd (GetResult (E:=E) s this) else s
  | op_produce sid p =>
      if bool_decide (sid < next_state s)%nat then snd (produce s sid p) else s
  end.

Definition run (ops : list op) (s : store) : store :=
  foldl step s ops.

(** The value a retrieval hands to its caller, if it hands over one. *)
Definition delivers (s : store) (o : op) : option T :=
  match o with
  | op_get this =>
      if live s this then
        match fst (get s this) with Returns v => Some v | _ => None end
      else None
  | op_GetResult this =>
      if live s this then
        match fst (GetResult (E:=E) s this) with Returns (Value v) => Some v | _ => None end
      else None
  | _ => None
  end.

(** The shared state a retrieval reads. *)
Definition reads (s : store) (o : op) : option nat :=
  match o with
  | op_get this | op_GetResult this => future_ s this
  | _ => None
  end.

(** How many retrievals of a program hand over the value of [sid]. *)
Fixpoint deliveries (sid : nat) (ops : list op) (s : store) : nat :=
  match ops with
  | [] => 0%nat
  | o :: ops' =>
      ((if bool_decide (reads s o = Some sid) && bool_decide (is_Some (delivers s o))
        then 1 else 0) + deliveries sid ops' (step s o))%nat
  end.

(** No two keys of [m] hold the same shared state. *)
Definition uniq (m : gmap nat (option nat)) : Prop :=
  ∀ f g sid, m !! f = Some (Some sid) → m !! g = Some (Some sid) → f = g.

(** No key of [m] holds [sid]. *)
Definition unreferenced (sid : nat) (m : gmap nat (option nat)) : Prop :=
  ∀ f, m !! f ≠ Some (Some sid).

(** No two live Future objects refer to the same shared state. *)
Definition unique_owner (s : store) : Prop := uniq (futures s).

(** Every shared state referred to has been created. *)
Definition created (s : store) : Prop :=
  ∀ f sid, futures s !! f = Some (Some sid) → (sid < next_state s)%nat.

End Store.
Arguments store T : clear implicits.
Arguments producer_op T : clear implicits.
Arguments event T : clear implicits.
Arguments op T : clear implicits.

(** ** The declarations of the two class templates *)

Inductive member :=
| m_default_ctor
| m_copy_ctor
| m_move_ctor
| m_dtor
| m_copy_assign
| m_move_assign
| m_get
| m_GetResult
| m_valid
| m_wait
| m_wait_for
| m_wait_until
| m_then
| m_then_executor
| m_is_ready.

#[global] Instance member_eq_dec : EqDecision member.
Proof. solve_decision. Defined.

Inductive declaration :=
| defaulted     (* = default *)
| deleted       (* = delete *)
| defined       (* declared with a body *)
| declared      (* declared without a body *)
| implicit.     (* not written in the class: supplied by the compiler *)

(** future.h:30-153 — the primary template [Future<T, E>]. *)
Definition Future_decl (m : member) : option declaration :=
  match m with
  | m_default_ctor => Some defaulted
  | m_copy_ctor => Some deleted
  | m_move_ctor => Some defined
  | m_dtor => Some defaulted
  | m_copy_assign => Some deleted
  | m_move_assign => Some defined
  | m_get => Some defined
  | m_GetResult => Some defined
  | m_valid => Some declared
  | m_wait => Some declared
  | m_wait_for => Some declared
  | m_wait_until => Some declared
  | m_then => Some declared
  | m_then_executor => Some declared
  | m_is_ready => Some declared
  end.

(** future.h:157-163 — the specialization [Future<void, E>]: its body holds
    the declaration of the default constructor and nothing else; the copy and
    move operations and the destructor are the compiler's. *)
Definition Future_void_decl (m : member) : option declaration :=
  match m with
  | m_default_ctor => Some declared
  | m_copy_ctor | m_move_ctor | m_dtor | m_copy_assign | m_move_assign => Some implicit
  | _ => None
  end.

(** A member can be named by a caller when the class has it and it is not
    deleted. *)
Definition available (decl : member -> option declaration) (m : member) : bool :=
  match decl m with
  | None | Some deleted => false
  | Some _ => true
  end.

(** The members written in the body of a class. *)
Definition written (decl : member -> option declaration) (m : member) : bool :=
  match decl m with
  | None | Some implicit => false
  | Some _ => true
  end.

Definition members : list member :=
  [m_default_ctor; m_copy_ctor; m_move_ctor; m_dtor; m_copy_assign; m_move_assign;
   m_get; m_GetResult; m_valid; m_wait; m_wait_for; m_wait_until; m_then;
   m_then_executor; m_is_ready].

Definition consumer_operations : list member :=
  [m_get; m_GetResult; m_valid; m_wait; m_wait_for; m_wait_until; m_then;
   m_then_executor; m_is_ready].

(** ** Continuations: then() *)

Module Continuation.

(** The types the unwrapping rule distinguishes. *)
Inductive type :=
| ty_plain (name : string)       (* neither a Future nor a Result *)
| ty_Future (T E : type)
| ty_Result (T E : type).

#[global] Instance type_eq_dec : EqDecision type.
Proof. solve_decision. Defined.

(** Modelled from the spec: the return type of [then], declared at
    future.h:125-126 and 142-143 with the return type [auto] and without a
    body.  For a continuation that returns [U], called on a
    [Future<T, E>]: "If U is Future<T2,E2> ... the return type of then() is
    Future<T2,E2> ... If U is Result<T2,E2> ... the return type of then()
    is Future<T2,E2> ... Otherwise it is Future<U,E>." *)
Definition then_type (E U : type) : type :=
  match U with
  | ty_Future T2 E2 => ty_Future T2 E2
  | ty_Result T2 E2 => ty_Future T2 E2
  | ty_plain _ => ty_Future U E
  end.

Section Engine.
(** [V]: the values futures and results carry; [Err]: their errors. *)
Context {V Err : Type}.

(** Modelled from the spec: the outcome of a shared state that is ready
    ("one of {Empty, Value(T), Error(E), Abandoned}"; an abandoned state
    counts as one with the error broken link, and an empty one is absent
    from [outcomes] below). *)
Inductive outcome :=
| has_value (v : V)
| has_error (e : Err).

(** Modelled from the spec: what a continuation hands back, by the kind of
    its return type [U]: a future (given by its shared state), a result
    container, or anything else. *)
Inductive returned :=
| ret_future (inner : nat)
| ret_result (r : Result V Err)
| ret_plain (v : V).

Definition continuation := outcome -> returned.

(** Modelled from the spec: what a shared state does when it becomes ready.
    It calls a continuation registered by [then], whose result completes
    [target]; or, as the inner future of an unwrapping, it passes its own
    outcome on to [target]. *)
Inductive callback :=
| call (k : continuation) (target : nat)
| forward (target : nat).

(** Modelled from the spec: the shared states of section 3, with their
    outcome and their stored callback. *)
Record engine := mkEngine {
  outcomes : gmap nat outcome;     (* the shared states that are ready *)
  callbacks : gmap nat callback;   (* "continuation: optional stored callback" *)
  next_cell : nat
}.

Definition set_outcome (g : engine) (c : nat) (o : outcome) : engine :=
  mkEngine (<[c := o]> (outcomes g)) (delete c (callbacks g)) (next_cell g).

Definition register (g : engine) (c : nat) (cb : callback) : engine :=
  mkEngine (outcomes g) (<[c := cb]> (callbacks g)) (next_cell g).

(** Modelled from the spec: the unwrapping rule of section 4.2, applied
    to the value [r] a continuation returned for the future of shared
    state [t].  A result container completes [t] with "the contained
    value or error directly", anything that is not a future or a result
    with "the continuation's return value"; for a future, [t] "does not
    complete until the inner one does, and the outer future's value/error
    equals the inner one's": an inner future that is ready completes [t]
    with its outcome, one that is not is given a callback that will.
    The result is the engine and the completion of [t] that is due. *)
Definition deliver (g : engine) (t : nat) (r : returned)
  : engine * option (nat * outcome) :=
  match r with
  | ret_future inner =>
      match outcomes g !! inner with
      | Some oi => (g, Some (t, oi))
      | None => (register g inner (forward t), None)
      end
  | ret_result (Value v) => (g, Some (t, has_value v))
  | ret_result (Error e) => (g, Some (t, has_error e))
  | ret_plain v => (g, Some (t, has_value v))
  end.

(** The callback of a shared state that became ready with outcome [o]. *)
Definition fire (g : engine) (cb : callback) (o : outcome)
  : engine * option (nat * outcome) :=
  match cb with
  | forward t => (g, Some (t, o))
  | call k t => deliver g t (k o)
  end.

(** Modelled from the spec: section 4.4, "On SharedState transition to
    Ready ...: if a continuation is registered, invoke it exactly once,
    passing ... the completed outcome; clear the registration afterward".
    Completing the target may fire the target's own continuation in
    turn.  A shared state that is ready is not completed again.  [fuel]
    bounds the length of the chain of continuations that fire. *)
Fixpoint complete (fuel : nat) (g : engine) (c : nat) (o : outcome) : engine :=
  match outcomes g !! c with
  | Some _ => g
  | None =>
      let g1 := set_outcome g c o in
      match fuel, callbacks g !! c with
      | O, _ => g1
      | S _, None => g1
      | S fuel', Some cb =>
          match fire g1 cb o with
          | (g2, Some (t, o')) => complete fuel' g2 t o'
          | (g2, None) => g2
          end
      end
  end.

(** Modelled from the spec: [then(continuation)] of sections 4.2 and 4.4
    on the future of shared state [c].  The result is the shared state
    of the returned future.  "If then is called after the state is
    already ready, the continuation fires immediately ... rather than
    being stored"; "registering a second is a usage error" ([None]).  The
    overload with an executor has the "identical contract"; where the
    continuation runs is not modelled. *)
Definition then_ (fuel : nat) (g : engine) (c : nat) (k : continuation)
  : option (nat * engine) :=
  let t := next_cell g in
  let g0 := mkEngine (outcomes g) (callbacks g) (S t) in
  match callbacks g !! c, outcomes g !! c with
  | Some _, _ => None
  | None, None => Some (t, register g0 c (call k t))
  | None, Some o =>
      match deliver g0 t (k o) with
      | (g1, Some (t', o')) => Some (t, complete fuel g1 t' o')
      | (g1, None) => Some (t, g1)
      end
  end.

(** Every shared state and callback of the engine was created by it. *)
Definition wf (g : engine) : Prop :=
  (∀ c o, outcomes g !! c = Some o → (c < next_cell g)%nat) ∧
  (∀ c cb, callbacks g !! c = Some cb → (c < next_cell g)%nat).

End Engine.
Arguments outcome V Err : clear implicits.
Arguments returned V Err : clear implicits.
Arguments continuation V Err : clear implicits.
Arguments callback V Err : clear implicits.
Arguments engine V Err : clear implicits.

End Continuation.

(** ** Notions used to state what the member functions keep *)

Section Notions.
Context {T : Type}.

(** Some live Future object refers to the shared state [sid]. *)
Definition referenced (s : store T) (sid : nat) : Prop :=
  ∃ f, futures s !! f = Some (Some sid).


End Notions.

(** * Properties *)

(** ** GetResult and its error classification *)

Section GetResult.
Context {T E : Type} `{FromFutureErrc E}.
Implicit Types (s : store T) (this : nat).

Lemma future__live s this h :
  futures s !! this = Some h → future_ s this = h.
Proof. unfold future_. by intros ->. Qed.

(** [GetResult] follows [get] case by case. *)
Lemma GetResult_get s this :
  GetResult (E:=E) s this =
    match get s this with
    | (Returns v, s') => (Returns (Value v), s')
    | (Throws (std.future_error code), s') =>
        (Returns (FromError (classify code)), s')
    | (Throws (std.other_exception _), s') => (Terminates, s')
    | (Blocks, s') => (Blocks, s')
    | (Terminates, s') => (Terminates, s')
    | (FlowsOffEnd, s') => (FlowsOffEnd, s')
    end.
Proof. reflexivity. Qed.

(** The cases of [std::future::get]. *)
Lemma get_cases s this :
  (future_ s this = None ∧
     get s this = (Throws (std.future_error (std.value std.no_state)), s)) ∨
  (∃ sid, future_ s this = Some sid ∧ states s !! sid = None ∧
     get s this = (Blocks, s)) ∨
  (∃ sid v, future_ s this = Some sid ∧ states s !! sid = Some (std.stored_value v) ∧
     get s this = (Returns v, set_futures s (<[this := None]> (futures s)))) ∨
  (∃ sid ex, future_ s this = Some sid ∧
     states s !! sid = Some (std.stored_exception ex) ∧
     get s this = (Throws ex, set_futures s (<[this := None]> (futures s)))).
Proof.
  unfold get, std_future_get.
  destruct (future_ s this) as [sid|]; [|by left].
  right. destruct (states s !! sid) as [[v|ex]|] eqn:Hst.
  - right; left. by exists sid, v.
  - right; right. by exists sid, ex.
  - left. by exists sid.
Qed.

(** [get] and [GetResult] leave the same store behind. *)
Lemma GetResult_store s this :
  snd (GetResult (E:=E) s this) = snd (get s this).
Proof.
  rewrite GetResult_get.
  destruct (get s this) as [[v|[code|what]| | |] s']; reflexivity.
Qed.

(** [GetResult] waits exactly where [get] waits. *)
Lemma GetResult_blocks s this :
  fst (GetResult (E:=E) s this) = Blocks ↔ fst (get s this) = Blocks.
Proof.
  rewrite GetResult_get.
  destruct (get s this) as [[v|[code|what]| | |] s']; simpl; split; congruence.
Qed.

(** No exception leaves [GetResult]. *)
Lemma GetResult_nothrow s this ex :
  fst (GetResult (E:=E) s this) ≠ Throws ex.
Proof.
  rewrite GetResult_get.
  destruct (get s this) as [[v|[code|what]| | |] s']; simpl; congruence.
Qed.

(** A value [get] returns is the value [GetResult] wraps. *)
Lemma GetResult_value s this v s' :
  get s this = (Returns v, s') → GetResult (E:=E) s this = (Returns (Value v), s').
Proof. rewrite GetResult_get. by intros ->. Qed.

(** A [std::future_error] is turned into the error its code classifies as. *)
Lemma GetResult_future_error s this code s' :
  get s this = (Throws (std.future_error code), s') →
  GetResult (E:=E) s this = (Returns (FromError (classify code)), s').
Proof. rewrite GetResult_get. by intros ->. Qed.

(** Any other exception ends the program. *)
Lemma GetResult_other_exception s this what s' :
  get s this = (Throws (std.other_exception what), s') →
  GetResult (E:=E) s this = (Terminates, s').
Proof. rewrite GetResult_get. by intros ->. Qed.

(** A Future without shared state: [future_.get()] throws no_state, which
    [GetResult] catches and returns as the error no_state. *)
Lemma get_without_state s this :
  future_ s this = None →
  get s this = (Throws (std.future_error (std.value std.no_state)), s) ∧
  GetResult (E:=E) s this = (Returns (Error (MakeErrorCode no_state)), s).
Proof.
  intros Hf. unfold get, GetResult, std_future_get. rewrite Hf. by split.
Qed.

End GetResult.

(** C1 — GetResult() on a Future whose shared state holds an error that is
    not a [std::future_error] (here a channel whose producer stored a
    runtime error with [set_exception]) does not return a Result: the
    exception passes the only handler of the noexcept function and the
    program is terminated. *)
Lemma GetResult_terminates_on_stored_error :
  let s0 := snd (make_channel (T:=Z) empty_store 0%nat) in
  let s1 := snd (produce s0 0%nat (set_exception (std.other_exception "runtime_error"))) in
  future_ s1 0%nat = Some 0%nat ∧
  states s1 !! 0%nat = Some (std.stored_exception (std.other_exception "runtime_error")) ∧
  fst (get s1 0%nat) = Throws (std.other_exception "runtime_error") ∧
  fst (GetResult (E:=ErrorCode) s1 0%nat) = Terminates.
Proof. vm_compute. auto. Qed.

(** C2 — The classification in GetResult is a function of the error code
    defined on every code: it maps broken_promise to broken_promise
    (BrokenLink), future_already_retrieved to future_already_retrieved
    (AlreadyRetrieved), no_state to no_state (NoState),
    promise_already_satisfied to promise_already_satisfied
    (AlreadySatisfied), and every code that is none of the four to
    kInvalidArgument (Other); and it is what GetResult returns for a
    [std::future_error] with that code. *)
Theorem classify_total :
  classify (std.value std.broken_promise) = broken_promise ∧
  classify (std.value std.future_already_retrieved) = future_already_retrieved ∧
  classify (std.value std.no_state) = no_state ∧
  classify (std.value std.promise_already_satisfied) = promise_already_satisfied ∧
  (∀ code : Z, (∀ c, code ≠ std.value c) → classify code = kInvalidArgument) ∧
  (∀ (T E : Type) (HE : FromFutureErrc E) (s s' : store T) (this : nat) (code : Z),
      get s this = (Throws (std.future_error code), s') →
      GetResult (E:=E) s this = (Returns (Error (MakeErrorCode (classify code))), s')).
Proof.
  repeat split; try reflexivity.
  - intros code Hother. unfold classify.
    pose proof (Hother std.broken_promise) as H1.
    pose proof (Hother std.future_already_retrieved) as H2.
    pose proof (Hother std.no_state) as H3.
    pose proof (Hother std.promise_already_satisfied) as H4.
    simpl in *.
    repeat match goal with
           | |- context [?a =? ?b] => destruct (Z.eqb_spec a b); [congruence|]
           end.
    reflexivity.
  - intros T E HE s s' this code Hget.
    apply (GetResult_future_error (E:=E)) in Hget. exact Hget.
Qed.

(** The code 0 is no enumerator of [std::future_errc]; a future_error that
    carries it reaches the default arm. *)
Lemma classify_total_witness :
  classify 0 = kInvalidArgument ∧
  (let s0 := snd (make_channel (T:=Z) empty_store 0%nat) in
   let s1 := snd (produce s0 0%nat (set_exception (std.future_error 7))) in
   fst (GetResult (E:=ErrorCode) s1 0%nat) = Returns (Error (mkErrorCode kInvalidArgument))).
Proof.
  split.
  - apply (proj1 (proj2 (proj2 (proj2 (proj2 classify_total))))).
    intros []; simpl; lia.
  - pose proof (proj2 (proj2 (proj2 (proj2 (proj2 classify_total))))) as Hcls.
    cbv zeta.
    erewrite (Hcls Z ErrorCode _ _ _ 0%nat 7); [reflexivity|].
    vm_compute. reflexivity.
Defined.

(** C9 — GetResult() on a Future without shared state (valid() is false, as
    after default construction or after being moved from) has a defined
    result: the no_state failure of the std::future is caught and the Result
    holds the error no_state (NoState); the store is left as it was. *)
Theorem GetResult_no_state {T E : Type} `{FromFutureErrc E} (s : store T) (this : nat) :
  valid s this = false →
  get s this = (Throws (std.future_error (std.value std.no_state)), s) ∧
  GetResult (E:=E) s this = (Returns (Error (MakeErrorCode no_state)), s).
Proof.
  unfold valid. intros Hv. apply get_without_state.
  by destruct (future_ s this).
Qed.

Lemma GetResult_no_state_witness :
  valid (Future_default (T:=Z) empty_store 0%nat) 0%nat = false ∧
  GetResult (E:=ErrorCode) (Future_default (T:=Z) empty_store 0%nat) 0%nat =
    (Returns (Error (mkErrorCode no_state)), Future_default empty_store 0%nat).
Proof.
  split; [reflexivity|].
  apply (GetResult_no_state (E:=ErrorCode) (Future_default (T:=Z) empty_store 0%nat) 0%nat).
  reflexivity.
Defined.

(** ** Moves, ownership and readiness *)

Section Ownership.
Context {T : Type}.
Implicit Types (s : store T) (m : gmap nat (option nat)) (this other sid : nat).

(** Two keys that hold the same shared state are the same key. *)
Ltac uniq_clash :=
  match goal with
  | Hu : uniq ?m, H1 : ?m !! ?x = Some (Some ?sid), H2 : ?m !! ?y = Some (Some ?sid) |- _ =>
      let E := fresh in pose proof (Hu x y sid H1 H2) as E; congruence
  end.

Lemma lookup_std_swap m a b f :
  std_swap m a b !! f =
    if decide (f = b) then Some (default None (m !! a))
    else if decide (f = a) then Some (default None (m !! b))
    else m !! f.
Proof.
  unfold std_swap. repeat case_decide; subst; simplify_map_eq; done.
Qed.

Lemma lookup_std_future_move_assign m this other f :
  std_future_move_assign m this other !! f =
    if decide (f = this) then Some (default None (m !! other))
    else if decide (f = other) then Some None
    else m !! f.
Proof.
  unfold std_future_move_assign. repeat case_decide; subst; simplify_map_eq; done.
Qed.

Lemma default_Some_lookup m f sid :
  default None (m !! f) = Some sid → m !! f = Some (Some sid).
Proof. destruct (m !! f) as [[?|]|]; simpl; congruence. Qed.

Lemma uniq_insert_None m x : uniq m → uniq (<[x := None]> m).
Proof.
  intros Hu f g sid Hf Hg.
  destruct (decide (f = x)); [by simplify_map_eq|].
  destruct (decide (g = x)); [by simplify_map_eq|].
  rewrite lookup_insert_ne in Hf by done. rewrite lookup_insert_ne in Hg by done.
  eauto.
Qed.

Lemma uniq_delete m x : uniq m → uniq (delete x m).
Proof.
  intros Hu f g sid Hf Hg.
  apply lookup_delete_Some in Hf as [_ Hf]. apply lookup_delete_Some in Hg as [_ Hg].
  eauto.
Qed.

Lemma uniq_insert_fresh m x sid :
  unreferenced sid m → uniq m → uniq (<[x := Some sid]> m).
Proof.
  intros Hfresh Hu f g sid' Hf Hg.
  destruct (decide (f = x)) as [->|Hfx], (decide (g = x)) as [->|Hgx]; [done| | |].
  - rewrite lookup_insert_eq in Hf. rewrite lookup_insert_ne in Hg by done.
    simplify_eq. by destruct (Hfresh g).
  - rewrite lookup_insert_eq in Hg. rewrite lookup_insert_ne in Hf by done.
    simplify_eq. by destruct (Hfresh f).
  - rewrite lookup_insert_ne in Hf by done. rewrite lookup_insert_ne in Hg by done.
    eauto.
Qed.

Lemma uniq_std_swap m a b : uniq m → uniq (std_swap m a b).
Proof.
  intros Hu f g sid. rewrite !lookup_std_swap.
  intros Hf Hg.
  repeat case_decide; simplify_eq;
    repeat match goal with
           | H : default None (_ !! _) = Some _ |- _ => apply default_Some_lookup in H
           end;
    first [done | uniq_clash].
Qed.

Lemma uniq_std_future_move_assign m this other :
  uniq m → uniq (std_future_move_assign m this other).
Proof.
  intros Hu f g sid. rewrite !lookup_std_future_move_assign.
  intros Hf Hg.
  repeat case_decide; simplify_eq;
    repeat match goal with
           | H : default None (_ !! _) = Some _ |- _ => apply default_Some_lookup in H
           end;
    first [done | uniq_clash].
Qed.

End Ownership.

Section Programs.
Context {T E : Type} `{FromFutureErrc E}.
Implicit Types (s : store T) (o : op T) (ops : list (op T)) (this other sid : nat).

Lemma future__Some s this sid :
  future_ s this = Some sid ↔ futures s !! this = Some (Some sid).
Proof.
  unfold future_. split.
  - apply default_Some_lookup.
  - by intros ->.
Qed.

(** A retrieval changes nothing but the member of its own object, which it
    may leave without shared state. *)
Lemma get_store s this :
  snd (get s this) = s ∨
  (is_Some (future_ s this) ∧
   snd (get s this) = set_futures s (<[this := None]> (futures s))).
Proof.
  destruct (get_cases s this) as [[_ ->]|[(sid & _ & _ & ->)|
    [(sid & v & Hf & _ & ->)|(sid & ex & Hf & _ & ->)]]]; simpl; eauto.
Qed.

Lemma produce_futures s sid (p : producer_op T) :
  futures (snd (produce s sid p)) = futures s ∧
  next_state (snd (produce s sid p)) = next_state s.
Proof.
  unfold produce. destruct (states s !! sid); [destruct p|]; done.
Qed.

(** No operation makes an object refer to a shared state that had no owner,
    except the creation of a channel, whose shared state is new. *)
Lemma step_no_new_reference s o f sid :
  futures (step (E:=E) s o) !! f = Some (Some sid) →
  (∃ g, futures s !! g = Some (Some sid)) ∨ (o = op_make_channel ∧ sid = next_state s).
Proof.
  destruct o as [| |other|this other|this|this|this|sid' p]; simpl.
  - intros Hf. destruct (decide (f = new_object s)) as [->|Hne].
    + rewrite lookup_insert_eq in Hf. right. split; congruence.
    + rewrite lookup_insert_ne in Hf by done. eauto.
  - intros Hf. destruct (decide (f = new_object s)) as [->|Hne].
    + by rewrite lookup_insert_eq in Hf.
    + rewrite lookup_insert_ne in Hf by done. eauto.
  - destruct (live s other); [|eauto]. simpl. rewrite lookup_std_swap.
    intros Hf. left. repeat case_decide; simplify_eq.
    + apply default_Some_lookup in Hf.
      destruct (decide (other = new_object s)) as [->|Hne].
      * by rewrite lookup_insert_eq in Hf.
      * rewrite lookup_insert_ne in Hf by done. eauto.
    + by rewrite lookup_insert_eq in Hf.
    + rewrite lookup_insert_ne in Hf by done. eauto.
  - destruct (live s this && live s other); [|eauto]. simpl.
    rewrite lookup_std_future_move_assign.
    intros Hf. left. repeat case_decide; simplify_eq.
    + apply default_Some_lookup in Hf. eauto.
    + eauto.
  - intros Hf. apply lookup_delete_Some in Hf as [_ Hf]. eauto.
  - destruct (live s this); [|eauto].
    destruct (get_store s this) as [->|[_ ->]]; [eauto|]. simpl.
    intros Hf. destruct (decide (f = this)) as [->|Hne].
    + by rewrite lookup_insert_eq in Hf.
    + rewrite lookup_insert_ne in Hf by done. eauto.
  - destruct (live s this); [|eauto]. rewrite GetResult_store.
    destruct (get_store s this) as [->|[_ ->]]; [eauto|]. simpl.
    intros Hf. destruct (decide (f = this)) as [->|Hne].
    + by rewrite lookup_insert_eq in Hf.
    + rewrite lookup_insert_ne in Hf by done. eauto.
  - case_bool_decide; [|eauto].
    destruct (produce_futures s sid' p) as [-> _]. eauto.
Qed.

(** Shared states are never given back. *)
Lemma step_next_state s o :
  (next_state s ≤ next_state (step (E:=E) s o))%nat.
Proof.
  destruct o as [| |other|this other|this|this|this|sid' p]; simpl; try lia.
  - destruct (live s other); simpl; lia.
  - destruct (live s this && live s other); simpl; lia.
  - destruct (live s this); [|lia].
    destruct (get_store s this) as [->|[_ ->]]; simpl; lia.
  - destruct (live s this); [|lia]. rewrite GetResult_store.
    destruct (get_store s this) as [->|[_ ->]]; simpl; lia.
  - case_bool_decide; [|lia].
    destruct (produce_futures s sid' p) as [_ ->]. lia.
Qed.

Lemma step_created s o : created s → created (step (E:=E) s o).
Proof.
  intros Hc f sid Hf.
  pose proof (step_next_state s o) as Hle.
  destruct (step_no_new_reference s o f sid Hf) as [[g Hg]|[-> ->]].
  - specialize (Hc g sid Hg). lia.
  - simpl. lia.
Qed.

Lemma step_unique_owner s o :
  created s → unique_owner s → unique_owner (step (E:=E) s o).
Proof.
  unfold unique_owner. intros Hc Hu.
  destruct o as [| |other|this other|this|this|this|sid' p]; simpl.
  - apply uniq_insert_fresh; [|done].
    intros f Hf. specialize (Hc f _ Hf). lia.
  - by apply uniq_insert_None.
  - destruct (live s other); [|done]. simpl.
    by apply uniq_std_swap, uniq_insert_None.
  - destruct (live s this && live s other); [|done]. simpl.
    by apply uniq_std_future_move_assign.
  - by apply uniq_delete.
  - destruct (live s this); [|done].
    destruct (get_store s this) as [->|[_ ->]]; [done|]. simpl.
    by apply uniq_insert_None.
  - destruct (live s this); [|done]. rewrite GetResult_store.
    destruct (get_store s this) as [->|[_ ->]]; [done|]. simpl.
    by apply uniq_insert_None.
  - case_bool_decide; [|done].
    by destruct (produce_futures s sid' p) as [-> _].
Qed.

Lemma run_cons s o ops : run (E:=E) (o :: ops) s = run (E:=E) ops (step (E:=E) s o).
Proof. reflexivity. Qed.

Lemma run_invariant ops s :
  created s → unique_owner s →
  created (run (E:=E) ops s) ∧ unique_owner (run (E:=E) ops s).
Proof.
  revert s. induction ops as [|o ops IH]; intros s Hc Hu; [done|].
  rewrite run_cons. apply IH.
  - by apply step_created.
  - by apply step_unique_owner.
Qed.

Lemma empty_store_invariant :
  created (T:=T) empty_store ∧ unique_owner (T:=T) empty_store.
Proof.
  split.
  - intros f sid Hf. simpl in Hf. by rewrite lookup_empty in Hf.
  - intros f g sid Hf. simpl in Hf. by rewrite lookup_empty in Hf.
Qed.

End Programs.

Section Moves.
Context {T : Type}.
Implicit Types (s : store T) (this other sid : nat).

Lemma live_lookup s this : live s this = true ↔ is_Some (futures s !! this).
Proof.
  unfold live. rewrite bool_decide_eq_true. apply elem_of_dom.
Qed.



(** future.h:43 — the new object takes over the shared state of [other],
    and [other] is left without one. *)
Lemma Future_move_spec s this other :
  this ≠ other →
  future_ (Future_move s this other) other = None ∧
  future_ (Future_move s this other) this = future_ s other.
Proof.
  intros Hne. unfold future_, Future_move, Future_default. simpl.
  rewrite !lookup_std_swap. repeat case_decide; simplify_eq.
  rewrite lookup_insert_eq, lookup_insert_ne by done. done.
Qed.

(** The member assignment of future.h:56 on an object assigned to itself
    leaves the member as it was. *)
Lemma Future_move_assign_self s this :
  live s this = true →
  future_ (snd (Future_move_assign s this this)) this = future_ s this.
Proof.
  intros _. unfold future_, Future_move_assign. simpl.
  rewrite lookup_std_future_move_assign. by rewrite decide_True.
Qed.

End Moves.




(** C6 — The move assignment operator is defined in the class, and its body
    holds no return statement: for every store and every pair of objects the
    call flows off the end of the function and does not return (a reference
    to) the object assigned to, which the same body followed by
    [return *this;] would. *)
Theorem Future_move_assign_flows_off_end {T : Type} (s : store T) (this other : nat) :
  Future_decl m_move_assign = Some defined ∧
  (return_this ∉ operator_move_assign_body other) ∧
  fst (Future_move_assign s this other) = FlowsOffEnd ∧
  fst (Future_move_assign s this other) ≠ Returns this ∧
  fst (exec this (operator_move_assign_body other ++ [return_this]) s) = Returns this.
Proof.
  split; [reflexivity|]. split; [|by repeat split].
  unfold operator_move_assign_body. rewrite list_elem_of_singleton. discriminate.
Qed.

(** ** Readiness and retrieval along a program *)

Section Retrieval.
Context {T E : Type} `{FromFutureErrc E}.
Implicit Types (s : store T) (o : op T) (ops : list (op T)) (this other sid : nat).

(** What the producer stored in a shared state stays there. *)
Lemma produce_states s sid' (p : producer_op T) sid x :
  states s !! sid = Some x → states (snd (produce s sid' p)) !! sid = Some x.
Proof.
  intros Hx. unfold produce.
  destruct (states s !! sid') eqn:Hs'; [by destruct p|]. simpl.
  rewrite lookup_insert_ne; [done|]. intros ->. congruence.
Qed.

Lemma step_states s o sid x :
  states s !! sid = Some x → states (step (E:=E) s o) !! sid = Some x.
Proof.
  intros Hx.
  destruct o as [| |other|this other|this|this|this|sid' p]; simpl; try done.
  - by destruct (live s other).
  - by destruct (live s this && live s other).
  - destruct (live s this); [|done].
    by destruct (get_store s this) as [->|[_ ->]].
  - destruct (live s this); [|done]. rewrite GetResult_store.
    by destruct (get_store s this) as [->|[_ ->]].
  - case_bool_decide; [|done]. by apply produce_states.
Qed.

Lemma run_states ops s sid x :
  states s !! sid = Some x → states (run (E:=E) ops s) !! sid = Some x.
Proof.
  revert s. induction ops as [|o ops IH]; intros s Hx; [done|].
  rewrite run_cons. by apply IH, step_states.
Qed.

Lemma is_ready_true s this :
  is_ready s this = Some true ↔
  ∃ sid, future_ s this = Some sid ∧ is_Some (states s !! sid).
Proof.
  unfold is_ready. destruct (future_ s this) as [sid|]; split.
  - destruct (states s !! sid) eqn:Hs; [|done]. intros _. exists sid. by rewrite Hs.
  - intros (sid' & [= <-] & [x ->]). done.
  - done.
  - by intros (? & ? & _).
Qed.

(** is_ready() tells whether get() would wait. *)
Lemma is_ready_get s this b :
  is_ready s this = Some b → (b = true ↔ fst (get s this) ≠ Blocks).
Proof.
  unfold is_ready, get, std_future_get.
  destruct (future_ s this) as [sid|]; [|done].
  destruct (states s !! sid) as [[v|ex]|]; intros [= <-]; simpl; split; done.
Qed.

(** An operation that finds no owner of [sid] leaves none. *)
Lemma step_unreferenced s o sid :
  (sid < next_state s)%nat → unreferenced sid (futures s) →
  unreferenced sid (futures (step (E:=E) s o)).
Proof.
  intros Hlt Hun f Hf.
  destruct (step_no_new_reference s o f sid Hf) as [[g Hg]|[_ ->]].
  - by destruct (Hun g).
  - lia.
Qed.

(** The value of a shared state without owner is handed to nobody. *)
Lemma deliveries_unreferenced ops s sid :
  (sid < next_state s)%nat → unreferenced sid (futures s) →
  deliveries (E:=E) sid ops s = 0%nat.
Proof.
  revert s. induction ops as [|o ops IH]; intros s Hlt Hun; [done|].
  simpl. rewrite IH.
  - case_bool_decide as Hr; [|done]. exfalso.
    destruct o; simpl in Hr; try done; apply future__Some in Hr; by destruct (Hun this).
  - pose proof (step_next_state (E:=E) s o). lia.
  - by apply step_unreferenced.
Qed.

(** A retrieval that hands over a value leaves its Future without shared
    state and changes nothing else. *)
Lemma delivers_step s o v :
  delivers (E:=E) s o = Some v →
  ∃ this sid, (o = op_get this ∨ o = op_GetResult this) ∧
    futures s !! this = Some (Some sid) ∧
    states s !! sid = Some (std.stored_value v) ∧
    step (E:=E) s o = set_futures s (<[this := None]> (futures s)).
Proof.
  destruct o as [| |other|this other|this|this|this|sid' p]; simpl; try done.
  - destruct (live s this); [|done].
    destruct (get_cases s this) as [[_ ->]|[(sid & _ & _ & ->)|
      [(sid & w & Hf & Hs & ->)|(sid & ex & _ & _ & ->)]]]; simpl; try done.
    intros [= <-]. exists this, sid. apply future__Some in Hf. eauto.
  - destruct (live s this); [|done]. rewrite GetResult_get.
    destruct (get_cases s this) as [[_ ->]|[(sid & _ & _ & ->)|
      [(sid & w & Hf & Hs & ->)|(sid & [code|what] & _ & _ & ->)]]]; simpl; try done.
    intros [= <-]. exists this, sid. apply future__Some in Hf. eauto.
Qed.

Lemma deliveries_at_most_once ops s sid :
  created s → unique_owner s → (deliveries (E:=E) sid ops s ≤ 1)%nat.
Proof.
  revert s. induction ops as [|o ops IH]; intros s Hc Hu; simpl; [lia|].
  destruct (bool_decide (reads s o = Some sid) && bool_decide (is_Some (delivers s o)))
    eqn:Hfirst.
  - apply andb_prop in Hfirst as [Hr%bool_decide_eq_true [v Hv]%bool_decide_eq_true].
    destruct (delivers_step s o v Hv) as (this & sid' & Ho & Hf & _ & Hstep).
    assert (sid' = sid) as ->.
    { destruct Ho as [-> | ->]; simpl in Hr; apply future__Some in Hr; congruence. }
    rewrite deliveries_unreferenced; [lia| |].
    + rewrite Hstep. simpl. eauto.
    + rewrite Hstep. simpl. intros f Hf'.
      destruct (decide (f = this)) as [->|Hne].
      * by rewrite lookup_insert_eq in Hf'.
      * rewrite lookup_insert_ne in Hf' by done. by specialize (Hu f this sid Hf' Hf).
  - simpl. apply IH; [by apply step_created | by apply step_unique_owner].
Qed.

(** The producer does not touch Future objects. *)
Lemma run_produce_futures (pops : list (nat * producer_op T)) s :
  futures (run (E:=E) (map (λ p, op_produce p.1 p.2) pops) s) = futures s.
Proof.
  revert s. induction pops as [|[sid p] pops IH]; intros s; [done|].
  simpl map. rewrite run_cons, IH. simpl.
  case_bool_decide; [|done]. by destruct (produce_futures s sid p) as [-> _].
Qed.

End Retrieval.

(** C8 — Readiness is monotonic.  Once is_ready() has returned true on a
    Future that refers to shared state [sid], then after every further
    program the shared state is still ready, and is_ready() returns true on
    every Future that refers to [sid]. *)
Theorem is_ready_monotonic {T E : Type} `{FromFutureErrc E}
    (s : store T) (this sid : nat) (ops : list (op T)) :
  future_ s this = Some sid →
  is_ready s this = Some true →
  is_Some (states (run (E:=E) ops s) !! sid) ∧
  ∀ that, future_ (run (E:=E) ops s) that = Some sid →
          is_ready (run (E:=E) ops s) that = Some true.
Proof.
  intros Hf (sid' & Hf' & [x Hx])%is_ready_true.
  assert (sid' = sid) as -> by congruence.
  pose proof (run_states (E:=E) ops s sid x Hx) as Hrun.
  split; [by eexists|].
  intros that Hthat. apply is_ready_true. exists sid. split; [done|by eexists].
Qed.

(** A channel whose value 7 has been published: its Future is ready and
    stays ready while it is moved into a new object and the producer tries
    to publish again. *)
Lemma is_ready_monotonic_witness :
  let s := snd (produce (snd (make_channel (T:=Z) empty_store 0%nat)) 0%nat (set_value 7)) in
  let ops := [op_Future_move 0%nat; op_produce 0%nat (set_value 8)] in
  future_ s 0%nat = Some 0%nat ∧
  is_ready s 0%nat = Some true ∧
  future_ (run (E:=ErrorCode) ops s) 1%nat = Some 0%nat ∧
  is_ready (run (E:=ErrorCode) ops s) 1%nat = Some true.
Proof.
  cbv zeta.
  set (s := snd (produce (snd (make_channel (T:=Z) empty_store 0%nat)) 0%nat (set_value 7))).
  set (ops := [op_Future_move 0%nat; op_produce 0%nat (set_value 8)]).
  assert (Hf : future_ s 0%nat = Some 0%nat) by (vm_compute; reflexivity).
  assert (Hr : is_ready s 0%nat = Some true) by (vm_compute; reflexivity).
  assert (Hf' : future_ (run (E:=ErrorCode) ops s) 1%nat = Some 0%nat)
    by (vm_compute; reflexivity).
  split; [exact Hf|]. split; [exact Hr|]. split; [exact Hf'|].
  exact (proj2 (is_ready_monotonic (E:=ErrorCode) s 0%nat 0%nat ops Hf Hr) 1%nat Hf').
Defined.

(** C3, as stated, fails: after a channel's value 42 has been retrieved with
    GetResult(), a second GetResult() on the same Future returns the error
    no_state (NoState), not future_already_retrieved (AlreadyRetrieved). *)
Lemma second_retrieval_not_already_retrieved :
  let s0 := snd (make_channel (T:=Z) empty_store 0%nat) in
  let s1 := snd (produce s0 0%nat (set_value 42)) in
  let s2 := snd (GetResult (E:=ErrorCode) s1 0%nat) in
  fst (GetResult (E:=ErrorCode) s1 0%nat) = Returns (Value 42) ∧
  fst (GetResult (E:=ErrorCode) s2 0%nat) = Returns (Error (mkErrorCode no_state)) ∧
  fst (GetResult (E:=ErrorCode) s2 0%nat)
    ≠ Returns (Error (mkErrorCode future_already_retrieved)) ∧
  fst (get s2 0%nat) = Throws (std.future_error (std.value std.no_state)).
Proof.
  cbv zeta. split; [vm_compute; reflexivity|]. split; [vm_compute; reflexivity|].
  split; [|vm_compute; reflexivity].
  intros Heq. vm_compute in Heq. discriminate Heq.
Qed.

(** C3, amended — In every program over a store in which no two Futures
    share a shared state, at most one get()/GetResult() call is handed the
    value of a given shared state.  The retrieval that is handed the value
    leaves its Future without shared state: whatever the producer does
    afterwards, a second get() on that Future throws no_state and a second
    GetResult() returns the error no_state (NoState), not a second copy of
    the value. *)
Theorem retrieval_at_most_once {T E : Type} `{FromFutureErrc E} :
  (∀ (s : store T) (ops : list (op T)) (sid : nat),
     created s → unique_owner s → (deliveries (E:=E) sid ops s ≤ 1)%nat) ∧
  (∀ (ops : list (op T)) (sid : nat), (deliveries (E:=E) sid ops empty_store ≤ 1)%nat) ∧
  (∀ (s : store T) (o : op T) (v : T) (pops : list (nat * producer_op T)),
     delivers (E:=E) s o = Some v →
     ∃ this,
       (o = op_get this ∨ o = op_GetResult this) ∧
       let s' := run (E:=E) (map (λ p, op_produce p.1 p.2) pops) (step (E:=E) s o) in
       valid s' this = false ∧
       get s' this = (Throws (std.future_error (std.value std.no_state)), s') ∧
       GetResult (E:=E) s' this = (Returns (Error (MakeErrorCode no_state)), s')).
Proof.
  split; [|split].
  - intros s ops sid. apply deliveries_at_most_once.
  - intros ops sid.
    destruct (empty_store_invariant (T:=T)) as [Hc Hu].
    by apply deliveries_at_most_once.
  - intros s o v pops Hv.
    destruct (delivers_step (E:=E) s o v Hv) as (this & sid & Ho & _ & _ & Hstep).
    exists this. split; [done|]. cbv zeta.
    set (s' := run _ _).
    assert (Hinv : valid s' this = false).
    { unfold valid, future_, s'. rewrite run_produce_futures, Hstep. simpl.
      by rewrite lookup_insert_eq. }
    split; [done|]. apply get_without_state.
    unfold valid in Hinv. by destruct (future_ s' this).
Qed.

(** A channel whose value 42 is retrieved by get(); a second publish and a
    second retrieval follow. *)
Lemma retrieval_at_most_once_witness :
  let s := snd (produce (snd (make_channel (T:=Z) empty_store 0%nat)) 0%nat (set_value 42)) in
  delivers (E:=ErrorCode) s (op_get 0%nat) = Some 42 ∧
  (let s' := run (E:=ErrorCode) [op_produce 0%nat (set_value 43)]
               (step (E:=ErrorCode) s (op_get 0%nat)) in
   GetResult (E:=ErrorCode) s' 0%nat = (Returns (Error (mkErrorCode no_state)), s')) ∧
  (deliveries (E:=ErrorCode) 0%nat [op_get 0%nat; op_GetResult 0%nat; op_get 0%nat] s ≤ 1)%nat.
Proof.
  cbv zeta.
  set (s := snd (produce (snd (make_channel (T:=Z) empty_store 0%nat)) 0%nat (set_value 42))).
  pose proof (retrieval_at_most_once (T:=Z) (E:=ErrorCode)) as (Hcount & _ & Hsecond).
  assert (Hv : delivers (E:=ErrorCode) s (op_get 0%nat) = Some 42)
    by (vm_compute; reflexivity).
  assert (Hs : s = run (E:=ErrorCode) [op_make_channel; op_produce 0%nat (set_value 42)]
                     empty_store) by (vm_compute; reflexivity).
  destruct (empty_store_invariant (T:=Z)) as [Hc0 Hu0].
  destruct (run_invariant (E:=ErrorCode)
              [op_make_channel; op_produce 0%nat (set_value 42)] empty_store Hc0 Hu0)
    as [Hc Hu].
  rewrite <- Hs in Hc, Hu.
  split; [exact Hv|]. split.
  - destruct (Hsecond s (op_get 0%nat) 42 [(0%nat, set_value 43)] Hv)
      as (this & Ho & _ & _ & Hres).
    assert (this = 0%nat) as -> by (destruct Ho as [Ho|Ho]; congruence).
    exact Hres.
  - exact (Hcount s _ 0%nat Hc Hu).
Defined.

(** ** Waiting with a timeout *)

Section Waiting.
Context {T : Type}.
Implicit Types (s : store T) (tl : list (event T)) (this sid d : nat).

Lemma perform_futures s (e : event T) : futures (perform s e) = futures s.
Proof.
  destruct e as [|sid p]; [done|]. simpl. by destruct (produce_futures s sid p).
Qed.

Lemma foldl_perform_futures tl s : futures (foldl perform s tl) = futures s.
Proof.
  revert s. induction tl as [|e tl IH]; intros s; [done|].
  simpl. by rewrite IH, perform_futures.
Qed.

(** The wait ends ready exactly when the shared state is ready after some
    events of [tl] during which at most [d] units of time pass. *)
Lemma wait_ready_status sid d tl s :
  (wait_ready sid d tl s).1.1 = ready ↔
  ∃ k, (ticks (take k tl) ≤ d)%nat ∧ is_Some (states (foldl perform s (take k tl)) !! sid).
Proof.
  revert d s. induction tl as [|e tl IH]; intros d s; simpl.
  - destruct (states s !! sid) eqn:Hs; simpl.
    + split; [|done]. intros _. exists 0%nat. simpl. rewrite Hs. split; [lia|done].
    + split; [done|]. intros (k & _ & Hk). rewrite take_nil in Hk. simpl in Hk.
      rewrite Hs in Hk. by destruct Hk.
  - destruct (states s !! sid) eqn:Hs; simpl.
    + split; [|done]. intros _. exists 0%nat. simpl. rewrite Hs. split; [lia|done].
    + destruct e as [|sid' p].
      * destruct d as [|d]; simpl.
        -- split; [done|]. intros ([|k] & Hk & Hr); simpl in *.
           ++ rewrite Hs in Hr. by destruct Hr.
           ++ lia.
        -- rewrite IH. split.
           ++ intros (k & Hk & Hr). exists (S k). simpl. split; [lia|done].
           ++ intros ([|k] & Hk & Hr); simpl in *.
              ** rewrite Hs in Hr. by destruct Hr.
              ** exists k. split; [lia|done].
      * rewrite IH. split.
        -- intros (k & Hk & Hr). exists (S k). simpl. split; [lia|done].
        -- intros ([|k] & Hk & Hr); simpl in *.
           ++ rewrite Hs in Hr. by destruct Hr.
           ++ exists k. split; [lia|done].
Qed.

(** The wait changes the store only by what the producers do meanwhile; it
    ends ready exactly when the shared state is ready at its end. *)
Lemma wait_ready_store sid d tl s :
  ∃ seen,
    tl = seen ++ (wait_ready sid d tl s).2 ∧
    (wait_ready sid d tl s).1.2 = foldl perform s seen ∧
    ((wait_ready sid d tl s).1.1 = ready ↔
       is_Some (states (wait_ready sid d tl s).1.2 !! sid)).
Proof.
  revert d s. induction tl as [|e tl IH]; intros d s; simpl.
  - exists []. destruct (states s !! sid) eqn:Hs; simpl; rewrite Hs;
      repeat split; first [done | by intros []].
  - destruct (states s !! sid) eqn:Hs; simpl.
    + exists []. rewrite Hs. done.
    + destruct e as [|sid' p].
      * destruct d as [|d]; simpl.
        -- exists []. rewrite Hs. repeat split; first [done | by intros []].
        -- destruct (IH d s) as (seen & Htl & Hst & Hrd).
           exists (Tick :: seen). simpl. by rewrite <- Htl.
      * destruct (IH d (snd (produce s sid' p))) as (seen & Htl & Hst & Hrd).
        exists (Produce sid' p :: seen). simpl. by rewrite <- Htl.
Qed.

End Waiting.

(** C7 — wait_for(d) on a Future with a shared state returns ready if the
    shared state is ready at some moment of the window of [d] units of time,
    and timeout otherwise.  It does not consume the result: the store it
    leaves differs from the one it found only by what the producers did
    meanwhile, every Future refers to what it referred to, after ready a
    get() is handed what the producer stored, and after timeout a publish
    followed by get() is handed the published value.  In particular
    wait_for(0) before publication returns timeout at once and leaves the
    store as it was. *)
Theorem wait_for_spec {T : Type} (s : store T) (this sid d : nat) (tl : list (event T)) :
  future_ s this = Some sid →
  ∃ st s' rest,
    wait_for s this d tl = Some (st, s', rest) ∧
    (st = ready ↔
       ∃ k, (ticks (take k tl) ≤ d)%nat ∧
            is_Some (states (foldl perform s (take k tl)) !! sid)) ∧
    (st = timeout ↔ st ≠ ready) ∧
    (∃ seen, tl = seen ++ rest ∧ s' = foldl perform s seen) ∧
    futures s' = futures s ∧
    (st = ready →
       ∃ x, states s' !! sid = Some x ∧
            fst (get s' this) =
              match x with
              | std.stored_value v => Returns v
              | std.stored_exception ex => Throws ex
              end) ∧
    (st = timeout →
       ∀ v, fst (get (snd (produce s' sid (set_value v))) this) = Returns v) ∧
    (states s !! sid = None → d = 0%nat → (tl = [] ∨ ∃ tl', tl = Tick :: tl') →
       st = timeout ∧ s' = s ∧ rest = tl).
Proof.
  intros Hf. unfold wait_for. rewrite Hf.
  destruct (wait_ready sid d tl s) as [[st s'] rest] eqn:Hw.
  exists st, s', rest. split; [done|].
  pose proof (wait_ready_status sid d tl s) as Hstatus.
  destruct (wait_ready_store sid d tl s) as (seen & Htl & Hs' & Hrd).
  rewrite Hw in Hstatus, Htl, Hs', Hrd. simpl in *.
  assert (Hfut : futures s' = futures s) by (by rewrite Hs', foldl_perform_futures).
  assert (Hf' : future_ s' this = Some sid) by (unfold future_ in *; by rewrite Hfut).
  split; [done|]. split; [by destruct st|]. split; [by exists seen|]. split; [done|].
  split; [|split].
  - intros [x Hx]%Hrd. exists x. split; [done|].
    unfold get, std_future_get. rewrite Hf', Hx. by destruct x.
  - intros -> v.
    assert (Hnone : states s' !! sid = None).
    { destruct (states s' !! sid) eqn:Hx; [|done].
      assert (timeout = ready) by (apply Hrd; by eexists). done. }
    unfold produce. rewrite Hnone. unfold get, std_future_get, future_ in *. simpl.
    rewrite Hf'. simpl. by rewrite lookup_insert_eq.
  - intros Hnone -> Hhead.
    destruct Hhead as [->|[tl' ->]]; simpl in Hw; rewrite Hnone in Hw; by simplify_eq.
Qed.

(** wait_for(0) on a new channel returns timeout; after the value 5 has
    been published, get() returns 5. *)
Lemma wait_for_spec_witness :
  let s := snd (make_channel (T:=Z) empty_store 0%nat) in
  future_ s 0%nat = Some 0%nat ∧
  wait_for s 0%nat 0%nat [] = Some (timeout, s, []) ∧
  fst (get (snd (produce s 0%nat (set_value 5))) 0%nat) = Returns 5 ∧
  (λ r, r.1.1) <$> wait_for s 0%nat 2%nat [Tick; Produce 0%nat (set_value 5); Tick]
    = Some ready.
Proof.
  cbv zeta.
  set (s := snd (make_channel (T:=Z) empty_store 0%nat)).
  assert (Hf : future_ s 0%nat = Some 0%nat) by (vm_compute; reflexivity).
  destruct (wait_for_spec s 0%nat 0%nat 0%nat [] Hf)
    as (st & s' & rest & Hw & _ & _ & _ & _ & _ & Hto & Hzero).
  destruct Hzero as (-> & -> & ->); [vm_compute; reflexivity|reflexivity|by left|].
  split; [exact Hf|]. split; [exact Hw|]. split; [exact (Hto eq_refl 5)|].
  vm_compute. reflexivity.
Defined.

(** ** The specialization for void *)

Lemma members_complete (m : member) : m ∈ members.
Proof. unfold members. destruct m; set_solver. Qed.

(** C10 — The body of the specialization Future<void, E> declares the
    default constructor and nothing else: each of the consumer operations
    get, GetResult, valid, wait, wait_for, wait_until, then (both overloads)
    and is_ready is a member of the primary template and is not a member of
    the specialization. *)
Theorem Future_void_only_default_ctor :
  (∀ m, written Future_void_decl m = true ↔ m = m_default_ctor) ∧
  List.filter (written Future_void_decl) members = [m_default_ctor] ∧
  Forall (λ m, Future_void_decl m = None ∧
               available Future_void_decl m = false ∧
               available Future_decl m = true) consumer_operations.
Proof.
  split; [|split].
  - intros m. split.
    + by destruct m.
    + by intros ->.
  - reflexivity.
  - unfold consumer_operations. repeat constructor.
Qed.

(** ** Continuations *)

Section Continuations.
Import Continuation.
Context {V Err : Type}.
Implicit Types (g : engine V Err) (o : outcome V Err) (k : continuation V Err)
  (cb : callback V Err) (c t fuel : nat).

Lemma then_type_cases (E U : type) :
  match U with
  | ty_Future T2 E2 => then_type E U = ty_Future T2 E2
  | ty_Result T2 E2 => then_type E U = ty_Future T2 E2
  | ty_plain _ => then_type E U = ty_Future U E
  end.
Proof. by destruct U. Qed.

(** A type is no future of itself. *)
Lemma ty_Future_acyclic (T2 E2 : type) : T2 ≠ ty_Future T2 E2.
Proof.
  revert E2. induction T2 as [n|T IHT E IHE|T IHT E IHE]; intros E2; try done.
  intros [= HT HE]. by apply (IHT E).
Qed.

(** Firing a callback leaves the outcomes alone. *)
Lemma fire_outcomes g cb o : outcomes (fire g cb o).1 = outcomes g.
Proof.
  destruct cb as [k t|t]; simpl; [|done].
  destruct (k o) as [inner|[v|e]|v]; simpl; try done.
  by destruct (outcomes g !! inner).
Qed.

(** The outcome of a shared state that is ready is never replaced. *)
Lemma complete_preserves fuel g c o x ox :
  outcomes g !! x = Some ox → outcomes (complete fuel g c o) !! x = Some ox.
Proof.
  revert g c o. induction fuel as [|fuel IH]; intros g c o Hx; simpl.
  - destruct (outcomes g !! c) eqn:Hc; [done|]. simpl.
    rewrite lookup_insert_ne; [done|]. intros ->. congruence.
  - destruct (outcomes g !! c) eqn:Hc; [done|].
    assert (Hx1 : outcomes (set_outcome g c o) !! x = Some ox).
    { simpl. rewrite lookup_insert_ne; [done|]. intros ->. congruence. }
    destruct (callbacks g !! c) as [cb|]; [|done].
    pose proof (fire_outcomes (set_outcome g c o) cb o) as Hfire.
    destruct (fire (set_outcome g c o) cb o) as [g2 [[t o']|]]; simpl in Hfire.
    + apply IH. by rewrite Hfire.
    + by rewrite Hfire.
Qed.

(** Completing a shared state that is not ready makes it ready with the
    outcome given. *)
Lemma complete_sets fuel g c o :
  outcomes g !! c = None → outcomes (complete fuel g c o) !! c = Some o.
Proof.
  intros Hc.
  assert (Hc1 : outcomes (set_outcome g c o) !! c = Some o)
    by (simpl; by rewrite lookup_insert_eq).
  destruct fuel as [|fuel]; simpl; rewrite Hc; [done|].
  destruct (callbacks g !! c) as [cb|]; [|done].
  pose proof (fire_outcomes (set_outcome g c o) cb o) as Hfire.
  destruct (fire (set_outcome g c o) cb o) as [g2 [[t o']|]]; simpl in Hfire.
  - apply complete_preserves. by rewrite Hfire.
  - by rewrite Hfire.
Qed.

(** In either case the shared state is ready afterwards. *)
Lemma complete_ready fuel g c o :
  outcomes (complete fuel g c o) !! c = Some (default o (outcomes g !! c)).
Proof.
  destruct (outcomes g !! c) as [oc|] eqn:Hc; simpl.
  - by apply complete_preserves.
  - by apply complete_sets.
Qed.

Lemma complete_noop fuel g c o :
  is_Some (outcomes g !! c) → complete fuel g c o = g.
Proof. intros [oc Hc]. destruct fuel; simpl; by rewrite Hc. Qed.

(** A shared state that is not ready and carries the callback [forward t]
    completes [t] with its own outcome when it is completed. *)
Lemma forward_completes fuel g inner t oi :
  outcomes g !! inner = None →
  outcomes g !! t = None →
  callbacks g !! inner = Some (forward t) →
  outcomes (complete (S fuel) g inner oi) !! inner = Some oi ∧
  outcomes (complete (S fuel) g inner oi) !! t = Some oi.
Proof.
  intros Hin Ht Hcb. split; [by apply complete_sets|].
  simpl. rewrite Hin, Hcb. simpl.
  rewrite complete_ready. simpl.
  destruct (decide (inner = t)) as [->|Hne].
  - by rewrite lookup_insert_eq.
  - rewrite lookup_insert_ne by done. by rewrite Ht.
Qed.

(** The unwrapping rule, for the future of a shared state [t] that is not
    ready when the continuation returns [r]. *)
Lemma deliver_unwraps fuel g t r :
  outcomes g !! t = None →
  ∀ g2,
    g2 = match deliver g t r with
         | (g', Some (t', o')) => complete fuel g' t' o'
         | (g', None) => g'
         end →
    (∀ x ox, outcomes g !! x = Some ox → outcomes g2 !! x = Some ox) ∧
    match r with
    | ret_plain v => outcomes g2 !! t = Some (has_value v)
    | ret_result (Value v) => outcomes g2 !! t = Some (has_value v)
    | ret_result (Error e) => outcomes g2 !! t = Some (has_error e)
    | ret_future inner =>
        match outcomes g2 !! inner with
        | Some oi => outcomes g2 !! t = Some oi
        | None =>
            outcomes g2 !! t = None ∧
            ∀ fuel' oi,
              outcomes (complete (S fuel') g2 inner oi) !! inner = Some oi ∧
              outcomes (complete (S fuel') g2 inner oi) !! t = Some oi
        end
    end.
Proof.
  intros Ht g2 ->.
  destruct r as [inner|[v|e]|v]; cbn [deliver].
  - destruct (outcomes g !! inner) as [oi|] eqn:Hin.
    + split; [intros x ox Hx; by apply complete_preserves|].
      rewrite (complete_preserves fuel g t oi inner oi Hin).
      by apply complete_sets.
    + split; [done|]. cbn [register outcomes]. rewrite Hin. split; [done|].
      intros fuel' oi. apply forward_completes; simpl; [done|done|].
      by rewrite lookup_insert_eq.
  - split; [intros x ox Hx; by apply complete_preserves|by apply complete_sets].
  - split; [intros x ox Hx; by apply complete_preserves|by apply complete_sets].
  - split; [intros x ox Hx; by apply complete_preserves|by apply complete_sets].
Qed.

End Continuations.

(** C4 — The return type of then() for a continuation that returns [U]:
    Future<T2,E2> if [U] is Future<T2,E2> (one level is removed: the result
    is not Future<Future<T2,E2>,E>), Future<T2,E2> if [U] is Result<T2,E2>,
    and Future<U,E> otherwise.  The future then() returns, of shared state
    [t], once the future then() was called on is ready with [oc] and the
    continuation has returned: if a future [inner] was returned, [t] is not
    ready while [inner] is not, and has the outcome of [inner] when [inner]
    is ready (at once if it is ready already, and on its completion
    otherwise); if a result container was returned, [t] is ready with the
    contained value or error; otherwise [t] is ready with the value
    returned.  This holds whether then() is called before or after its
    future became ready. *)
Theorem then_unwraps {V Err : Type} :
  (∀ E T2 E2 : Continuation.type,
     Continuation.then_type E (Continuation.ty_Future T2 E2) = Continuation.ty_Future T2 E2 ∧
     Continuation.then_type E (Continuation.ty_Future T2 E2)
       ≠ Continuation.ty_Future (Continuation.ty_Future T2 E2) E) ∧
  (∀ E T2 E2 : Continuation.type,
     Continuation.then_type E (Continuation.ty_Result T2 E2) = Continuation.ty_Future T2 E2) ∧
  (∀ (E : Continuation.type) (n : string),
     Continuation.then_type E (Continuation.ty_plain n)
       = Continuation.ty_Future (Continuation.ty_plain n) E) ∧
  (∀ (fuel : nat) (g : Continuation.engine V Err) (c : nat)
     (k : Continuation.continuation V Err) (o : Continuation.outcome V Err),
     Continuation.wf g →
     (c < Continuation.next_cell g)%nat →
     Continuation.callbacks g !! c = None →
     let t := Continuation.next_cell g in
     let oc := default o (Continuation.outcomes g !! c) in
     ∃ g1,
       Continuation.then_ fuel g c k = Some (t, g1) ∧
       let g2 := Continuation.complete (S fuel) g1 c o in
       Continuation.outcomes g2 !! c = Some oc ∧
       match k oc with
       | Continuation.ret_plain v =>
           Continuation.outcomes g2 !! t = Some (Continuation.has_value v)
       | Continuation.ret_result (Value v) =>
           Continuation.outcomes g2 !! t = Some (Continuation.has_value v)
       | Continuation.ret_result (Error e) =>
           Continuation.outcomes g2 !! t = Some (Continuation.has_error e)
       | Continuation.ret_future inner =>
           match Continuation.outcomes g2 !! inner with
           | Some oi => Continuation.outcomes g2 !! t = Some oi
           | None =>
               Continuation.outcomes g2 !! t = None ∧
               ∀ fuel' oi,
                 let g3 := Continuation.complete (S fuel') g2 inner oi in
                 Continuation.outcomes g3 !! inner = Some oi ∧
                 Continuation.outcomes g3 !! t = Some oi
           end
       end).
Proof.
  split; [|split; [|split]]; try done.
  - intros E T2 E2. split; [done|]. simpl. intros [= HT _].
    by apply ty_Future_acyclic in HT.
  - intros fuel g c k o [Hwo Hwc] Hlt Hcb t oc.
    assert (Hfresh : Continuation.outcomes g !! t = None).
    { destruct (Continuation.outcomes g !! t) as [ot|] eqn:Ht; [|done].
      apply Hwo in Ht. unfold t in Ht. lia. }
    assert (Hne : t ≠ c) by (unfold t; lia).
    unfold Continuation.then_. rewrite Hcb. fold t.
    destruct (Continuation.outcomes g !! c) as [oc'|] eqn:Hc; simpl in oc; subst oc.
    + (* then() on a future that is ready: the continuation fires at once *)
      set (g0 := Continuation.mkEngine _ _ (S t)).
      destruct (deliver_unwraps fuel g0 t (k oc') Hfresh _ eq_refl) as [Hmono Hunwrap].
      destruct (Continuation.deliver g0 t (k oc')) as [g' [[t' o']|]] eqn:Hd;
        eexists; (split; [reflexivity|]); cbv zeta;
        rewrite complete_noop by (erewrite Hmono; [done|exact Hc]);
        (split; [by apply Hmono|exact Hunwrap]).
    + (* then() on a future that is not ready: the continuation is stored
         and fires when the future is completed *)
      eexists. split; [reflexivity|]. cbv zeta.
      set (g1 := Continuation.register _ c _).
      assert (Hc1 : Continuation.outcomes g1 !! c = None) by done.
      split; [rewrite complete_ready; by rewrite Hc1|].
      simpl. rewrite Hc. simpl. rewrite lookup_insert_eq. simpl.
      set (g1' := Continuation.set_outcome g1 c o).
      assert (Hfresh' : Continuation.outcomes g1' !! t = None)
        by (simpl; by rewrite lookup_insert_ne).
      destruct (deliver_unwraps fuel g1' t (k o) Hfresh' _ eq_refl) as [_ Hunwrap].
      exact Hunwrap.
Qed.

(** Shared states 0 and 1 are not ready.  then() on the future of 0, with a
    continuation that returns the future of 1, gives the future of 2: 2 is
    not ready when 0 has been completed, and has the error of 1 once 1 is
    completed with an error. *)
Lemma then_unwraps_witness :
  let g : Continuation.engine Z ErrorCode := Continuation.mkEngine ∅ ∅ 2 in
  let k : Continuation.continuation Z ErrorCode := λ _, Continuation.ret_future 1 in
  Continuation.wf g ∧ (0 < Continuation.next_cell g)%nat ∧
  Continuation.callbacks g !! 0%nat = None ∧
  ∃ g1,
    Continuation.then_ 0 g 0 k = Some (2%nat, g1) ∧
    let g2 := Continuation.complete 1 g1 0 (Continuation.has_value 5) in
    Continuation.outcomes g2 !! 2%nat = None ∧
    let g3 := Continuation.complete 1 g2 1 (Continuation.has_error (mkErrorCode broken_promise)) in
    Continuation.outcomes g3 !! 2%nat
      = Some (Continuation.has_error (mkErrorCode broken_promise)).
Proof.
  cbv zeta.
  set (g := Continuation.mkEngine (V:=Z) (Err:=ErrorCode) ∅ ∅ 2).
  set (k := (λ _, Continuation.ret_future 1) : Continuation.continuation Z ErrorCode).
  assert (Hwf : Continuation.wf g).
  { split; intros c x Hx; simpl in Hx; by rewrite lookup_empty in Hx. }
  assert (Hlt : (0 < Continuation.next_cell g)%nat) by (simpl; lia).
  assert (Hcb : Continuation.callbacks g !! 0%nat = None) by reflexivity.
  split; [exact Hwf|]. split; [exact Hlt|]. split; [exact Hcb|].
  destruct (proj2 (proj2 (proj2 (then_unwraps (V:=Z) (Err:=ErrorCode))))
              0%nat g 0%nat k (Continuation.has_value 5) Hwf Hlt Hcb)
    as (g1 & Hthen & _ & Hunwrap).
  exists g1. split; [exact Hthen|].
  change (k (default (Continuation.has_value 5) (Continuation.outcomes g !! 0%nat)))
    with (Continuation.ret_future (V:=Z) (Err:=ErrorCode) 1) in Hunwrap.
  cbv beta iota zeta in Hunwrap.
  assert (Hg1 : g1 = Continuation.register
                       (Continuation.mkEngine ∅ ∅ 3) 0 (Continuation.call k 2)).
  { unfold Continuation.then_ in Hthen. simpl in Hthen.
    rewrite !lookup_empty in Hthen. congruence. }
  assert (Hin : Continuation.outcomes
                  (Continuation.complete 1 g1 0 (Continuation.has_value 5)) !! 1%nat = None).
  { rewrite Hg1. vm_compute. reflexivity. }
  rewrite Hin in Hunwrap. destruct Hunwrap as [Ht Hlater].
  split; [exact Ht|].
  exact (proj2 (Hlater 0%nat (Continuation.has_error (mkErrorCode broken_promise)))).
Defined.

(** * Further properties of the member functions *)

(** ** GetResult and get, by what the store holds *)

(** X1 — What GetResult() does, by the state of the Future: it returns the
    value [v] exactly when the Future refers to a shared state that holds
    [v]; it ends the program exactly when that state holds an exception that
    is not a std::future_error; it waits exactly when that state is not
    ready; an error it returns is no_state for a Future without shared state
    and otherwise the classification of a stored std::future_error; and it
    never exits with an exception or without a return statement. *)
Theorem GetResult_outcomes {T E : Type} {HE : FromFutureErrc E} (s : store T) (this : nat) :
  (∀ v, fst (GetResult (E:=E) s this) = Returns (Value v) ↔
        ∃ sid, future_ s this = Some sid ∧ states s !! sid = Some (std.stored_value v)) ∧
  (fst (GetResult (E:=E) s this) = Terminates ↔
     ∃ sid what, future_ s this = Some sid ∧
       states s !! sid = Some (std.stored_exception (std.other_exception what))) ∧
  (fst (GetResult (E:=E) s this) = Blocks ↔
     ∃ sid, future_ s this = Some sid ∧ states s !! sid = None) ∧
  (∀ e, fst (GetResult (E:=E) s this) = Returns (Error e) →
        (future_ s this = None ∧ e = MakeErrorCode no_state) ∨
        (∃ sid code, future_ s this = Some sid ∧
           states s !! sid = Some (std.stored_exception (std.future_error code)) ∧
           e = MakeErrorCode (classify code))) ∧
  (∀ ex, fst (GetResult (E:=E) s this) ≠ Throws ex) ∧
  fst (GetResult (E:=E) s this) ≠ FlowsOffEnd.
Proof.
  rewrite GetResult_get.
  destruct (get_cases s this) as [[Hf Hg]|[(sid & Hf & Hs & Hg)|
    [(sid & v & Hf & Hs & Hg)|(sid & [code|what] & Hf & Hs & Hg)]]];
    rewrite Hg; simpl; repeat split; try done; intros;
    repeat match goal with
           | H : ∃ _, _ |- _ => destruct H
           | H : _ ∧ _ |- _ => destruct H
           end;
    simplify_eq; eauto 10.
Qed.

(** X2 — A retrieval touches nothing but the member of its own object:
    get() and GetResult() leave the same store; what the shared states hold,
    which shared states exist, which objects are live and the member of
    every other Future are as before; a retrieval that waits changes nothing
    at all; and a Future without shared state stays without one. *)
Theorem retrieval_frame {T E : Type} `{FromFutureErrc E} (s : store T) (this : nat) :
  snd (GetResult (E:=E) s this) = snd (get s this) ∧
  states (snd (get s this)) = states s ∧
  next_state (snd (get s this)) = next_state s ∧
  dom (futures (snd (get s this))) = dom (futures s) ∧
  (∀ f, f ≠ this → futures (snd (get s this)) !! f = futures s !! f) ∧
  (∀ f, future_ s f = None → future_ (snd (get s this)) f = None) ∧
  (fst (get s this) = Blocks → snd (get s this) = s).
Proof.
  split; [apply GetResult_store|].
  destruct (get_cases s this) as [[Hf Hg]|[(sid & Hf & Hs & Hg)|
    [(sid & v & Hf & Hs & Hg)|(sid & ex & Hf & Hs & Hg)]]];
    rewrite Hg; simpl; try done.
  all: apply future__Some in Hf.
  all: repeat split; try done.
  all: try (apply dom_insert_lookup_L; by eexists).
  all: try (intros f Hne; by rewrite lookup_insert_ne).
  all: intros f Hnone; unfold future_ in *; simpl;
    (destruct (decide (f = this)) as [->|Hne];
     [by rewrite lookup_insert_eq | by rewrite lookup_insert_ne]).
Qed.

(** X3 — A retrieval that completes is the last one with a result: once
    GetResult() has not waited, the Future has no shared state, a further
    get() throws no_state and a further GetResult() returns the error
    no_state, and neither changes the store. *)
Theorem retrieval_completes_once {T E : Type} `{FromFutureErrc E} (s : store T) (this : nat) :
  fst (GetResult (E:=E) s this) ≠ Blocks →
  future_ (snd (GetResult (E:=E) s this)) this = None ∧
  get (snd (GetResult (E:=E) s this)) this
    = (Throws (std.future_error (std.value std.no_state)), snd (GetResult (E:=E) s this)) ∧
  GetResult (E:=E) (snd (GetResult (E:=E) s this)) this
    = (Returns (Error (MakeErrorCode no_state)), snd (GetResult (E:=E) s this)).
Proof.
  intros Hnb.
  assert (Hnone : future_ (snd (GetResult (E:=E) s this)) this = None).
  { rewrite GetResult_store. rewrite GetResult_get in Hnb.
    destruct (get_cases s this) as [[Hf Hg]|[(sid & Hf & Hs & Hg)|
      [(sid & v & Hf & Hs & Hg)|(sid & ex & Hf & Hs & Hg)]]];
      rewrite Hg in *; simpl in *; try done.
    all: unfold future_; simpl; by rewrite lookup_insert_eq. }
  split; [done|]. by apply get_without_state.
Qed.

(** A Future on a shared state whose producer was destroyed: the first
    GetResult() returns broken_promise, the second no_state. *)
Lemma retrieval_completes_once_witness :
  let s : store Z :=
    mkStore {[0%nat := std.stored_exception (std.future_error 4)]} {[0%nat := Some 0%nat]} 1 in
  fst (GetResult (E:=ErrorCode) s 0%nat) = Returns (Error (mkErrorCode broken_promise)) ∧
  fst (GetResult (E:=ErrorCode) (snd (GetResult (E:=ErrorCode) s 0%nat)) 0%nat)
    = Returns (Error (mkErrorCode no_state)).
Proof.
  cbv zeta.
  set (s := mkStore (T:=Z) _ _ _).
  assert (Hfirst : fst (GetResult (E:=ErrorCode) s 0%nat)
                   = Returns (Error (mkErrorCode broken_promise)))
    by (vm_compute; reflexivity).
  split; [exact Hfirst|].
  assert (Hnb : fst (GetResult (E:=ErrorCode) s 0%nat) ≠ Blocks)
    by (rewrite Hfirst; discriminate).
  destruct (retrieval_completes_once (E:=ErrorCode) s 0%nat Hnb) as (_ & _ & Hsecond).
  rewrite Hsecond. reflexivity.
Defined.

(** X4 — From the producer to the consumer.  For a Future on a shared state
    that is not ready, once the producer has acted get() returns the value
    set, rethrows the exception set, or throws broken_promise for a
    destroyed producer; GetResult() returns the value, the classified error
    (broken_promise for a destroyed producer), or ends the program for an
    exception that is no std::future_error.  What the producer does
    afterwards does not change what is retrieved. *)
Theorem produce_then_retrieve {T E : Type} `{FromFutureErrc E}
    (s : store T) (this sid : nat) (p p2 : producer_op T) :
  future_ s this = Some sid →
  states s !! sid = None →
  fst (get (snd (produce s sid p)) this) =
    match p with
    | set_value v => Returns v
    | set_exception ex => Throws ex
    | abandon => Throws (std.future_error (std.value std.broken_promise))
    end ∧
  fst (GetResult (E:=E) (snd (produce s sid p)) this) =
    match p with
    | set_value v => Returns (Value v)
    | set_exception (std.future_error code) => Returns (Error (MakeErrorCode (classify code)))
    | set_exception (std.other_exception _) => Terminates
    | abandon => Returns (Error (MakeErrorCode broken_promise))
    end ∧
  fst (GetResult (E:=E) (snd (produce (snd (produce s sid p)) sid p2)) this)
    = fst (GetResult (E:=E) (snd (produce s sid p)) this).
Proof.
  intros Hf Hs.
  assert (Hs1 : states (snd (produce s sid p)) !! sid = Some (produced p)).
  { unfold produce. rewrite Hs. simpl. by rewrite lookup_insert_eq. }
  assert (Hf1 : future_ (snd (produce s sid p)) this = Some sid).
  { unfold future_ in *. by destruct (produce_futures s sid p) as [-> _]. }
  assert (Hsame : snd (produce (snd (produce s sid p)) sid p2) = snd (produce s sid p)).
  { unfold produce at 1. rewrite Hs1. by destruct p2. }
  rewrite Hsame. split; [|split; [|done]].
  - unfold get, std_future_get. rewrite Hf1, Hs1. by destruct p.
  - unfold GetResult, std_future_get. rewrite Hf1, Hs1.
    destruct p as [v|[code|what]|]; reflexivity.
Qed.

(** The value 42 set on a new channel is what GetResult() returns. *)
Lemma produce_then_retrieve_witness :
  let s : store Z := mkStore ∅ {[0%nat := Some 0%nat]} 1 in
  fst (GetResult (E:=ErrorCode) (snd (produce s 0%nat (set_value 42))) 0%nat)
    = Returns (Value 42) ∧
  fst (GetResult (E:=ErrorCode)
         (snd (produce (snd (produce s 0%nat (set_value 42))) 0%nat (set_value 43))) 0%nat)
    = Returns (Value 42).
Proof.
  cbv zeta.
  set (s := mkStore (T:=Z) _ _ _).
  assert (Hf : future_ s 0%nat = Some 0%nat) by (vm_compute; reflexivity).
  assert (Hs : states s !! 0%nat = None) by (vm_compute; reflexivity).
  destruct (produce_then_retrieve (E:=ErrorCode) s 0%nat 0%nat (set_value 42) (set_value 43)
              Hf Hs) as (_ & Hres & Hlater).
  split; [exact Hres|]. rewrite Hlater. exact Hres.
Defined.

(** X5 — The classification keeps the recognised codes apart: it yields
    kInvalidArgument exactly for the codes that are no enumerator of
    std::future_errc, it maps different enumerators to different error
    kinds, and every other error kind comes from exactly one enumerator. *)
Theorem classify_exact :
  (∀ code, classify code = kInvalidArgument ↔ ∀ c, code ≠ std.value c) ∧
  (∀ c1 c2, classify (std.value c1) = classify (std.value c2) → c1 = c2) ∧
  (∀ code k, classify code = k → k ≠ kInvalidArgument →
     ∃ c, code = std.value c ∧ ∀ c', classify (std.value c') = k → c' = c).
Proof.
  assert (Hcases : ∀ code,
    (code = 4 ∧ classify code = broken_promise) ∨
    (code = 1 ∧ classify code = future_already_retrieved) ∨
    (code = 3 ∧ classify code = no_state) ∨
    (code = 2 ∧ classify code = promise_already_satisfied) ∨
    ((∀ c, code ≠ std.value c) ∧ classify code = kInvalidArgument)).
  { intros code. unfold classify. simpl.
    destruct (Z.eqb_spec code 4); [by left|].
    destruct (Z.eqb_spec code 1); [by right; left|].
    destruct (Z.eqb_spec code 3); [by right; right; left|].
    destruct (Z.eqb_spec code 2); [by right; right; right; left|].
    right; right; right; right. split; [|done]. intros []; simpl; lia. }
  split; [|split].
  - intros code. split.
    + intros Hk c ->. by destruct c.
    + intros Hother. by destruct (Hcases code) as [[-> _]|[[-> _]|[[-> _]|[[-> _]|[_ ?]]]]];
        try (by destruct (Hother std.broken_promise));
        try (by destruct (Hother std.future_already_retrieved));
        try (by destruct (Hother std.no_state));
        try (by destruct (Hother std.promise_already_satisfied)).
  - intros [] []; simpl; intros Heq; try done; vm_compute in Heq; discriminate.
  - intros code k Hk Hne.
    destruct (Hcases code) as [[-> Hc]|[[-> Hc]|[[-> Hc]|[[-> Hc]|[_ Hc]]]]];
      rewrite Hc in Hk; subst k; try done.
    + exists std.broken_promise. split; [done|]. by intros [].
    + exists std.future_already_retrieved. split; [done|]. by intros [].
    + exists std.no_state. split; [done|]. by intros [].
    + exists std.promise_already_satisfied. split; [done|]. by intros [].
Qed.

(** ** Moves, construction and destruction *)

Section Transfers.
Context {T E : Type} {HE : FromFutureErrc E}.
Implicit Types (s : store T) (this other sid : nat).

(** A retrieval depends on the member of its object and on the shared
    states only. *)
Lemma retrieval_depends s1 s2 a b :
  future_ s1 a = future_ s2 b → states s1 = states s2 →
  fst (get s1 a) = fst (get s2 b) ∧
  fst (GetResult (E:=E) s1 a) = fst (GetResult (E:=E) s2 b).
Proof.
  intros Hf Hs. unfold GetResult, get, std_future_get. rewrite Hf, Hs.
  destruct (future_ s2 b) as [sid|]; [|done].
  by destruct (states s2 !! sid) as [[v|[code|what]]|].
Qed.

Lemma step_states_origin s (o : op T) sid x :
  states (step (E:=E) s o) !! sid = Some x →
  states s !! sid = Some x ∨ ∃ p, o = op_produce sid p ∧ produced p = x.
Proof.
  destruct o as [| |other|this other|this|this|this|sid' p]; simpl; eauto.
  - destruct (live s other); eauto.
  - destruct (live s this && live s other); eauto.
  - destruct (live s this); [|eauto].
    destruct (get_store s this) as [->|[_ ->]]; eauto.
  - destruct (live s this); [|eauto]. rewrite GetResult_store.
    destruct (get_store s this) as [->|[_ ->]]; eauto.
  - case_bool_decide; [|eauto]. unfold produce.
    destruct (states s !! sid') eqn:Hs'; [destruct p; eauto|]. simpl.
    destruct (decide (sid = sid')) as [->|Hne].
    + rewrite lookup_insert_eq. intros [= <-]. eauto.
    + rewrite lookup_insert_ne by done. eauto.
Qed.

(** A shared state that a program made ready was made ready by one of its
    producer actions, performed on the created shared state while it was not
    ready. *)
Lemma run_states_first (ops : list (op T)) s sid x :
  states s !! sid = None →
  states (run (E:=E) ops s) !! sid = Some x →
  ∃ ops1 p ops2,
    ops = ops1 ++ op_produce sid p :: ops2 ∧
    states (run (E:=E) ops1 s) !! sid = None ∧
    (sid < next_state (run (E:=E) ops1 s))%nat ∧
    produced p = x.
Proof.
  revert s. induction ops as [|o ops IH]; intros s Hnone Hx.
  - simpl in Hx. congruence.
  - rewrite run_cons in Hx.
    destruct (states (step (E:=E) s o) !! sid) as [y|] eqn:Hstep.
    + pose proof (run_states (E:=E) ops _ sid y Hstep) as Hy.
      assert (y = x) as -> by congruence.
      destruct (step_states_origin s o sid x Hstep) as [?|(p & -> & Hp)]; [congruence|].
      exists [], p, ops. split; [done|]. split; [done|]. split; [|done].
      simpl in Hstep. case_bool_decide; [done|congruence].
    + destruct (IH _ Hstep Hx) as (ops1 & p & ops2 & -> & Hn1 & Hlt & Hp).
      exists (o :: ops1), p, ops2. by rewrite run_cons.
Qed.

End Transfers.

(** X6 — Move construction hands the result over.  On the new object get()
    and GetResult() complete as they would have on [other] before the move;
    on [other] GetResult() now returns no_state; the shared states and every
    third Future are as before. *)
Theorem Future_move_transfers {T E : Type} {HE : FromFutureErrc E}
    (s : store T) (this other : nat) :
  this ≠ other →
  fst (get (Future_move s this other) this) = fst (get s other) ∧
  fst (GetResult (E:=E) (Future_move s this other) this) = fst (GetResult (E:=E) s other) ∧
  fst (GetResult (E:=E) (Future_move s this other) other)
    = Returns (Error (MakeErrorCode no_state)) ∧
  states (Future_move s this other) = states s ∧
  next_state (Future_move s this other) = next_state s ∧
  (∀ f, f ≠ this → f ≠ other → futures (Future_move s this other) !! f = futures s !! f).
Proof.
  intros Hne. destruct (Future_move_spec s this other Hne) as [Ho Ht].
  destruct (retrieval_depends (E:=E) (Future_move s this other) s this other Ht eq_refl)
    as [Hget Hres].
  split; [done|]. split; [done|]. split.
  { by destruct (get_without_state (E:=E) (Future_move s this other) other Ho) as [_ ->]. }
  split; [done|]. split; [done|].
  intros f Hft Hfo. unfold Future_move, Future_default. simpl.
  rewrite lookup_std_swap. repeat case_decide; simplify_eq.
  by rewrite lookup_insert_ne.
Qed.

(** A Future on a shared state that holds 5 is moved into object 1. *)
Lemma Future_move_transfers_witness :
  let s : store Z := mkStore {[0%nat := std.stored_value 5]} {[0%nat := Some 0%nat]} 1 in
  1%nat ≠ 0%nat ∧
  fst (GetResult (E:=ErrorCode) (Future_move s 1%nat 0%nat) 1%nat) = Returns (Value 5) ∧
  fst (GetResult (E:=ErrorCode) (Future_move s 1%nat 0%nat) 0%nat)
    = Returns (Error (mkErrorCode no_state)).
Proof.
  cbv zeta.
  set (s := mkStore (T:=Z) _ _ _).
  assert (Hne : 1%nat ≠ 0%nat) by lia.
  destruct (Future_move_transfers (E:=ErrorCode) s 1%nat 0%nat Hne) as (_ & Hnew & Hold & _).
  split; [exact Hne|]. split; [|exact Hold].
  rewrite Hnew. vm_compute. reflexivity.
Defined.

(** X8 — What move construction does to the references.  Move construction
    into a new object keeps exactly the shared states that were referred to:
    none is lost and none is referred to that was not; and it keeps the
    Futures from sharing a shared state. *)
Theorem Future_move_keeps_references {T : Type} (s : store T) (this other : nat) :
  this ≠ other →
  futures s !! this = None →
  unique_owner s →
  (∀ sid, referenced (Future_move s this other) sid ↔ referenced s sid) ∧
  unique_owner (Future_move s this other).
Proof.
  intros Hne Hnew Hu. split.
  - intros sid. unfold referenced, Future_move, Future_default. simpl. split.
    + intros [f Hf]. rewrite lookup_std_swap in Hf.
      repeat case_decide; simplify_eq.
      * apply default_Some_lookup in Hf. rewrite lookup_insert_ne in Hf by done. eauto.
      * apply default_Some_lookup in Hf. by rewrite lookup_insert_eq in Hf.
      * rewrite lookup_insert_ne in Hf by done. eauto.
    + intros [f Hf]. destruct (decide (f = other)) as [->|Hfo].
      * exists this. rewrite lookup_std_swap, decide_True by done.
        rewrite lookup_insert_ne by done. by rewrite Hf.
      * exists f. rewrite lookup_std_swap.
        assert (f ≠ this) by (intros ->; congruence).
        rewrite !decide_False by done. by rewrite lookup_insert_ne.
  - unfold unique_owner, Future_move, Future_default. simpl.
    by apply uniq_std_swap, uniq_insert_None.
Qed.

(** Future 0 on shared state 0 is moved into the new object 1: shared state
    0 is still referred to, and by object 1. *)
Lemma Future_move_keeps_references_witness :
  let s : store Z := mkStore ∅ {[0%nat := Some 0%nat]} 1 in
  1%nat ≠ 0%nat ∧ futures s !! 1%nat = None ∧ unique_owner s ∧
  referenced (Future_move s 1%nat 0%nat) 0%nat ∧
  future_ (Future_move s 1%nat 0%nat) 1%nat = Some 0%nat.
Proof.
  cbv zeta.
  set (s := mkStore (T:=Z) _ _ _).
  assert (Hne : 1%nat ≠ 0%nat) by lia.
  assert (Hnew : futures s !! 1%nat = None) by (vm_compute; reflexivity).
  assert (Hu : unique_owner s).
  { intros f g sid Hf Hg. simpl in Hf, Hg.
    apply lookup_singleton_Some in Hf as [<- _].
    by apply lookup_singleton_Some in Hg as [<- _]. }
  destruct (Future_move_keeps_references s 1%nat 0%nat Hne Hnew Hu) as [Hrefs _].
  split; [exact Hne|]. split; [exact Hnew|]. split; [exact Hu|]. split.
  - apply Hrefs. by exists 0%nat.
  - vm_compute. reflexivity.
Defined.

(** X9 — Move constructions compose.  Moving a live Future [a] into a new
    object [b] and [b] into a new object [c] gives the store of moving [a]
    into [c] with [b] default-constructed: [c] retrieves what [a] would
    have, and [a] and [b] have no shared state. *)
Theorem Future_move_twice {T E : Type} {HE : FromFutureErrc E} (s : store T) (a b c : nat) :
  live s a = true →
  futures s !! b = None →
  futures s !! c = None →
  b ≠ c →
  Future_move (Future_move s b a) c b = Future_move (Future_default s b) c a ∧
  fst (GetResult (E:=E) (Future_move (Future_move s b a) c b) c)
    = fst (GetResult (E:=E) s a) ∧
  future_ (Future_move (Future_move s b a) c b) a = None ∧
  future_ (Future_move (Future_move s b a) c b) b = None.
Proof.
  intros [h Ha]%live_lookup Hb Hc Hbc.
  assert (Hab : a ≠ b) by (intros ->; congruence).
  assert (Hac : a ≠ c) by (intros ->; congruence).
  assert (Hlook : ∀ i,
    futures (Future_move (Future_move s b a) c b) !! i =
      if decide (i = c) then Some h
      else if decide (i = a) then Some None
      else if decide (i = b) then Some None
      else futures s !! i).
  { intros i. unfold Future_move, Future_default. simpl.
    repeat first [ rewrite lookup_std_swap
                 | rewrite lookup_insert_eq
                 | rewrite lookup_insert_ne by done
                 | rewrite Ha
                 | progress simpl
                 | case_decide; simplify_eq ];
      done. }
  assert (Hm : futures (Future_move (Future_move s b a) c b)
               = futures (Future_move (Future_default s b) c a)).
  { apply map_eq. intros i. rewrite Hlook.
    unfold Future_move, Future_default. simpl.
    repeat first [ rewrite lookup_std_swap
                 | rewrite lookup_insert_eq
                 | rewrite lookup_insert_ne by done
                 | rewrite Ha
                 | progress simpl
                 | case_decide; simplify_eq ];
      done. }
  assert (Hfc : future_ (Future_move (Future_move s b a) c b) c = future_ s a).
  { unfold future_. rewrite Hlook, decide_True by done. by rewrite Ha. }
  split; [|split; [|split]].
  - unfold Future_move, Future_default, set_futures in *. simpl in *. by rewrite Hm.
  - by destruct (retrieval_depends (E:=E) (Future_move (Future_move s b a) c b) s c a
                   Hfc eq_refl).
  - unfold future_. rewrite Hlook. by rewrite decide_False, decide_True.
  - unfold future_. rewrite Hlook.
    by rewrite decide_False, decide_False, decide_True.
Qed.

(** Future 0 on a shared state that holds 5 is moved into object 1 and from
    there into object 2. *)
Lemma Future_move_twice_witness :
  let s : store Z := mkStore {[0%nat := std.stored_value 5]} {[0%nat := Some 0%nat]} 1 in
  live s 0%nat = true ∧ futures s !! 1%nat = None ∧ futures s !! 2%nat = None ∧
  1%nat ≠ 2%nat ∧
  fst (GetResult (E:=ErrorCode) (Future_move (Future_move s 1%nat 0%nat) 2%nat 1%nat) 2%nat)
    = Returns (Value 5).
Proof.
  cbv zeta.
  set (s := mkStore (T:=Z) _ _ _).
  assert (Ha : live s 0%nat = true) by (vm_compute; reflexivity).
  assert (Hb : futures s !! 1%nat = None) by (vm_compute; reflexivity).
  assert (Hc : futures s !! 2%nat = None) by (vm_compute; reflexivity).
  assert (Hbc : 1%nat ≠ 2%nat) by lia.
  destruct (Future_move_twice (E:=ErrorCode) s 0%nat 1%nat 2%nat Ha Hb Hc Hbc)
    as (_ & Hres & _).
  split; [exact Ha|]. split; [exact Hb|]. split; [exact Hc|]. split; [exact Hbc|].
  rewrite Hres. vm_compute. reflexivity.
Defined.

(** X10 — Destruction.  The destroyed object is not live, the shared states
    and every other Future are as before, the other Futures still do not
    share, and the shared state the object referred to is referred to by no
    Future. *)
Theorem Future_destroy_releases {T : Type} (s : store T) (this : nat) :
  unique_owner s →
  live (Future_destroy s this) this = false ∧
  states (Future_destroy s this) = states s ∧
  (∀ f, f ≠ this → futures (Future_destroy s this) !! f = futures s !! f) ∧
  unique_owner (Future_destroy s this) ∧
  (∀ sid, future_ s this = Some sid → ¬ referenced (Future_destroy s this) sid).
Proof.
  intros Hu. split; [|split; [done|split; [|split]]].
  - unfold live, Future_destroy. simpl. apply bool_decide_eq_false.
    rewrite dom_delete_L. intros [_ Hn]%elem_of_difference.
    apply Hn. by apply elem_of_singleton.
  - intros f Hne. unfold Future_destroy. simpl. by rewrite lookup_delete_ne.
  - unfold unique_owner, Future_destroy. simpl. by apply uniq_delete.
  - intros sid Hthis%future__Some [f Hf]. unfold Future_destroy in Hf. simpl in Hf.
    apply lookup_delete_Some in Hf as [Hne Hf]. by specialize (Hu _ _ _ Hf Hthis).
Qed.

(** The only Future of a store is destroyed. *)
Lemma Future_destroy_releases_witness :
  let s : store Z := mkStore ∅ {[0%nat := Some 0%nat]} 1 in
  unique_owner s ∧ referenced s 0%nat ∧ ¬ referenced (Future_destroy s 0%nat) 0%nat.
Proof.
  cbv zeta.
  set (s := mkStore (T:=Z) _ _ _).
  assert (Hu : unique_owner s).
  { intros f g sid Hf Hg. simpl in Hf, Hg.
    apply lookup_singleton_Some in Hf as [<- _].
    by apply lookup_singleton_Some in Hg as [<- _]. }
  destruct (Future_destroy_releases s 0%nat Hu) as (_ & _ & _ & _ & Hrel).
  split; [exact Hu|]. split; [by exists 0%nat|].
  apply Hrel. vm_compute. reflexivity.
Defined.

(** ** Programs *)

(** X12 — A retrieval is handed the value of its own channel.  A value that
    get() or GetResult() hands over after a program is the value of the
    shared state its Future refers to: either that state held it before the
    program, or the program has a set_value of it on that very state, made
    while the state existed and was not ready. *)
Theorem delivered_value_was_set {T E : Type} {HE : FromFutureErrc E}
    (s : store T) (ops : list (op T)) (o : op T) (v : T) :
  delivers (E:=E) (run (E:=E) ops s) o = Some v →
  ∃ sid,
    reads (run (E:=E) ops s) o = Some sid ∧
    (states s !! sid = Some (std.stored_value v) ∨
     ∃ ops1 ops2,
       ops = ops1 ++ op_produce sid (set_value v) :: ops2 ∧
       states (run (E:=E) ops1 s) !! sid = None ∧
       (sid < next_state (run (E:=E) ops1 s))%nat).
Proof.
  intros Hv.
  destruct (delivers_step (E:=E) _ o v Hv) as (this & sid & Ho & Hf & Hs & _).
  exists sid. split.
  { apply future__Some in Hf. by destruct Ho as [-> | ->]. }
  destruct (states s !! sid) as [y|] eqn:Hstart.
  - left. pose proof (run_states (E:=E) ops s sid y Hstart). congruence.
  - right. destruct (run_states_first (E:=E) ops s sid _ Hstart Hs)
      as (ops1 & p & ops2 & -> & Hn1 & Hlt & Hp).
    exists ops1, ops2. destruct p as [w|ex|]; simpl in Hp; simplify_eq. done.
Qed.

(** Two channels; 7 is set on the first and 8 on the second, then 9 on the
    first again: the Future of the first is handed 7. *)
Lemma delivered_value_was_set_witness :
  let ops : list (op Z) :=
    [op_make_channel; op_make_channel; op_produce 0%nat (set_value 7);
     op_produce 1%nat (set_value 8); op_produce 0%nat (set_value 9)] in
  delivers (E:=ErrorCode) (run (E:=ErrorCode) ops empty_store) (op_GetResult 0%nat) = Some 7 ∧
  ∃ sid,
    reads (run (E:=ErrorCode) ops empty_store) (op_GetResult 0%nat) = Some sid ∧
    ∃ ops1 ops2, ops = ops1 ++ op_produce sid (set_value 7) :: ops2.
Proof.
  cbv zeta.
  set (ops := [op_make_channel; op_make_channel; op_produce 0%nat (set_value 7);
               op_produce 1%nat (set_value 8); op_produce 0%nat (set_value 9)]).
  assert (Hv : delivers (E:=ErrorCode) (run (E:=ErrorCode) ops empty_store)
                 (op_GetResult 0%nat) = Some 7)
    by (vm_compute; reflexivity).
  split; [exact Hv|].
  destruct (delivered_value_was_set (E:=ErrorCode) empty_store ops _ 7 Hv)
    as (sid & Hr & [Hs|(ops1 & ops2 & Hops & _)]).
  - simpl in Hs. by rewrite lookup_empty in Hs.
  - exists sid. split; [exact Hr|]. by exists ops1, ops2.
Defined.
